(** * The polar encoder kernel [volk_8u_x3_encodepolar_8u_x2]

    A shallow embedding of [kernels/volk/volk_8u_x3_encodepolar_8u_x2.h]:
    the scalar ("generic") encoder, the two SSSE3 encoders, and the helpers
    they share, followed by the properties of the encoders.

    Conventions of the embedding.
    - An [unsigned char] is a [Z] in the range [0, 256); a buffer is a
      [list Z], as long as the object the caller provides, and a pointer
      into it is a [nat] offset from its start.  The buffers [frame] and
      [temp] are distinct objects (the kernel's contract), so each is a
      list of its own.
    - Every memory access is checked where the code executes it: a read or
      a write outside the buffer makes the operation return [None],
      whether or not what is read is used afterwards.
    - An [unsigned int] counter is a [nat].  No counter of the kernel ever
      exceeds [2^31] (the stage count is a 5-bit number), so none wraps.
    - A [__m128i] register is a list of 16 lanes, lane 0 at the lowest
      address. *)

From Stdlib Require Import ZArith Lia ZifyNat Btauto.
From stdpp Require Import base option list.

Local Open Scope Z_scope.
Local Open Scope nat_scope.

(** ** Bytes *)

Definition is_byte (x : Z) : Prop := (0 <= x < 256)%Z.
Definition is_bit (x : Z) : Prop := x = 0%Z \/ x = 1%Z.

(** ** Counted loops and checked memory *)

(** [for_loop n body s]: [n] iterations of [body], stopping at the first
    fault. *)
Fixpoint for_loop {A : Type} (n : nat) (body : A -> option A) (s : A) : option A :=
  match n with
  | O => Some s
  | S n' => s' ← body s; for_loop n' body s'
  end.

(** [*(p + i) = v] *)
Definition store8 (m : list Z) (i : nat) (v : Z) : option (list Z) :=
  if decide (i < length m) then Some (<[i := v]> m) else None.

(** [memcpy(dst, src, n)] *)
Definition memcpy (dst src : list Z) (n : nat) : option (list Z) :=
  if decide (n <= length src /\ n <= length dst)
  then Some (take n src ++ drop n dst) else None.

(** ** [log2_of_power_of_2] *)

Definition b0 : Z := 0xAAAAAAAA.
Definition b1 : Z := 0xCCCCCCCC.
Definition b2 : Z := 0xF0F0F0F0.
Definition b3 : Z := 0xFF00FF00.
Definition b4 : Z := 0xFFFF0000.

(** The C value of [x != 0]. *)
Definition neq0 (x : Z) : Z := if decide (x = 0%Z) then 0%Z else 1%Z.

Definition log2_of_power_of_2 (val : Z) : Z :=
  let res := neq0 (Z.land val b0) in
  let res := Z.lor res (Z.shiftl (neq0 (Z.land val b4)) 4) in
  let res := Z.lor res (Z.shiftl (neq0 (Z.land val b3)) 3) in
  let res := Z.lor res (Z.shiftl (neq0 (Z.land val b2)) 2) in
  let res := Z.lor res (Z.shiftl (neq0 (Z.land val b1)) 1) in
  res.

(** ** [interleave_frozen_and_info_bits] *)

(** The four pointers the loop advances: [target] (with the buffer it writes),
    [frozen_bit_mask] (advanced together with [target], both at [il_bit]),
    [frozen_bits] and [info_bits]. *)
Record il_state := IlState {
  il_target : list Z;
  il_bit : nat;
  il_frozen : nat;
  il_info : nat
}.

(** [*target++ = *frozen_bit_mask++ ? *frozen_bits++ : *info_bits++;] *)
Definition interleave_step (frozen_bit_mask frozen_bits info_bits : list Z)
    (s : il_state) : option il_state :=
  m ← frozen_bit_mask !! il_bit s;
  if decide (m = 0%Z) then
    v ← info_bits !! il_info s;
    t ← store8 (il_target s) (il_bit s) v;
    Some (IlState t (S (il_bit s)) (il_frozen s) (S (il_info s)))
  else
    v ← frozen_bits !! il_frozen s;
    t ← store8 (il_target s) (il_bit s) v;
    Some (IlState t (S (il_bit s)) (S (il_frozen s)) (il_info s)).

Definition interleave_run (target frozen_bit_mask frozen_bits info_bits : list Z)
    (n : nat) : option il_state :=
  for_loop n (interleave_step frozen_bit_mask frozen_bits info_bits)
    (IlState target 0 0 0).

Definition interleave_frozen_and_info_bits
    (target frozen_bit_mask frozen_bits info_bits : list Z) (frame_size : nat)
    : option (list Z) :=
  s ← interleave_run target frozen_bit_mask frozen_bits info_bits frame_size;
  Some (il_target s).

(** ** [encodepolar_single_stage] *)

Record stage_state := StageState {
  st_frame : list Z;
  frame_ptr : nat;
  temp_ptr : nat
}.

(** The body of the inner loop.  Both operands are [unsigned char]; their
    exclusive or is again below 256, so the store does not truncate. *)
Definition stage_bit (temp : list Z) (frame_half : nat) (s : stage_state)
    : option stage_state :=
  x ← temp !! temp_ptr s;
  y ← temp !! (temp_ptr s + 1);
  f1 ← store8 (st_frame s) (frame_ptr s) (Z.lxor x y);
  f2 ← store8 f1 (frame_ptr s + frame_half) y;
  Some (StageState f2 (frame_ptr s + 1) (temp_ptr s + 2)).

(** The body of the outer loop: [frame_half] bits, then
    [frame_ptr += frame_half]. *)
Definition stage_branch (temp : list Z) (frame_half : nat) (s : stage_state)
    : option stage_state :=
  s' ← for_loop frame_half (stage_bit temp frame_half) s;
  Some (StageState (st_frame s') (frame_ptr s' + frame_half) (temp_ptr s')).

Definition encodepolar_single_stage (frame temp : list Z)
    (num_branches frame_half : nat) : option (list Z) :=
  s ← for_loop num_branches (stage_branch temp frame_half) (StageState frame 0 0);
  Some (st_frame s).

(** ** [volk_8u_x3_encodepolar_8u_x2_generic] *)

(** The [while(stage)] loop; it returns both buffers. *)
Fixpoint generic_loop (stage : nat) (frame temp : list Z)
    (frame_size num_branches frame_half : nat) : option (list Z * list Z) :=
  match stage with
  | O => Some (frame, temp)
  | S stage' =>
      frame' ← encodepolar_single_stage frame temp num_branches frame_half;
      temp' ← memcpy temp frame' frame_size;
      generic_loop stage' frame' temp' frame_size
        (Nat.shiftl num_branches 1) (Nat.shiftr frame_half 1)
  end.

Definition volk_8u_x3_encodepolar_8u_x2_generic
    (frame temp frozen_bit_mask frozen_bits info_bits : list Z)
    (frame_size : nat) : option (list Z * list Z) :=
  let stage := Z.to_nat (log2_of_power_of_2 (Z.of_nat frame_size)) in
  let frame_half := Nat.shiftr frame_size 1 in
  let num_branches := 1 in
  temp' ← interleave_frozen_and_info_bits temp frozen_bit_mask frozen_bits
            info_bits frame_size;
  generic_loop stage frame temp' frame_size num_branches frame_half.

(** ** The SSE intrinsics the kernel uses *)

Definition vec := list Z.

(** [_mm_set_epi8] takes lane 15 first, [_mm_setr_epi8] lane 0 first. *)
Definition _mm_set_epi8 (e15 e14 e13 e12 e11 e10 e9 e8 e7 e6 e5 e4 e3 e2 e1 e0 : Z)
    : vec :=
  [e0; e1; e2; e3; e4; e5; e6; e7; e8; e9; e10; e11; e12; e13; e14; e15].

Definition _mm_setr_epi8 (e0 e1 e2 e3 e4 e5 e6 e7 e8 e9 e10 e11 e12 e13 e14 e15 : Z)
    : vec :=
  [e0; e1; e2; e3; e4; e5; e6; e7; e8; e9; e10; e11; e12; e13; e14; e15].

(** Byte shift towards lane 0, zeros shifted in at the top. *)
Definition _mm_bsrli_si128 (a : vec) (imm8 : nat) : vec :=
  take 16 (drop imm8 a ++ replicate 16 0%Z).

Definition _mm_and_si128 (a b : vec) : vec := zip_with Z.land a b.
Definition _mm_xor_si128 (a b : vec) : vec := zip_with Z.lxor a b.

(** Lane [i] of the result is 0 when bit 7 of [b[i]] is set, and
    [a[b[i] & 15]] otherwise. *)
Definition _mm_shuffle_epi8 (a b : vec) : vec :=
  map (fun c => if Z.testbit c 7 then 0%Z
                else nth (Z.to_nat (Z.land c 15)) a 0%Z) b.

Definition _mm_unpacklo_epi64 (a b : vec) : vec := take 8 a ++ take 8 b.
Definition _mm_unpackhi_epi64 (a b : vec) : vec := drop 8 a ++ drop 8 b.

(** Unaligned 16-byte load and store at offset [p] of a buffer. *)
Definition _mm_loadu_si128 (m : list Z) (p : nat) : option vec :=
  if decide (p + 16 <= length m) then Some (take 16 (drop p m)) else None.

Definition _mm_storeu_si128 (m : list Z) (p : nat) (v : vec) : option (list Z) :=
  if decide (p + 16 <= length m)
  then Some (take p m ++ v ++ drop (p + 16) m) else None.

(** Aligned load and store: the address, [base + p] for a buffer that
    starts at address [base], has to be a multiple of 16. *)
Definition _mm_load_si128 (base : nat) (m : list Z) (p : nat) : option vec :=
  if decide ((base + p) mod 16 = 0) then _mm_loadu_si128 m p else None.

Definition _mm_store_si128 (base : nat) (m : list Z) (p : nat) (v : vec)
    : option (list Z) :=
  if decide ((base + p) mod 16 = 0) then _mm_storeu_si128 m p v else None.

(** ** The SSSE3 encoders

    [volk_8u_x3_encodepolar_8u_x2_u_ssse3] and
    [volk_8u_x3_encodepolar_8u_x2_a_ssse3] are the same text but for their
    loads and stores; the embedding has one body over the two primitives. *)

Definition mask_stage1 : vec :=
  _mm_set_epi8 0x0 0xFF 0x0 0xFF 0x0 0xFF 0x0 0xFF 0x0 0xFF 0x0 0xFF 0x0 0xFF 0x0 0xFF.
Definition shuffle_separate : vec :=
  _mm_setr_epi8 0 2 4 6 8 10 12 14 1 3 5 7 9 11 13 15.
Definition shuffle_stage4 : vec :=
  _mm_setr_epi8 0 8 4 12 2 10 6 14 1 9 5 13 3 11 7 15.
Definition mask_stage4 : vec :=
  _mm_set_epi8 0x0 0x0 0x0 0x0 0x0 0x0 0x0 0x0 0xFF 0xFF 0xFF 0xFF 0xFF 0xFF 0xFF 0xFF.
Definition mask_stage3 : vec :=
  _mm_set_epi8 0x0 0x0 0x0 0x0 0xFF 0xFF 0xFF 0xFF 0x0 0x0 0x0 0x0 0xFF 0xFF 0xFF 0xFF.
Definition mask_stage2 : vec :=
  _mm_set_epi8 0x0 0x0 0xFF 0xFF 0x0 0x0 0xFF 0xFF 0x0 0x0 0xFF 0xFF 0x0 0x0 0xFF 0xFF.

(** The state of the fine loop.  [r_temp0] is loaded one iteration ahead of
    its use: the register holds the chunk the next iteration works on. *)
Record fine_state := FineState {
  fi_frame : list Z;
  fi_frame_ptr : nat;
  fi_temp_ptr : nat;
  fi_r_temp0 : vec
}.

(** What the encoder hands over to its fine tier. *)
Record coarse_result := CoarseResult {
  co_frame : list Z;
  co_temp : list Z;
  co_stage : nat;
  co_num_branches : nat;
  co_frame_half : nat
}.

Section ssse3.
Variable load : list Z -> nat -> option vec.
Variable store : list Z -> nat -> vec -> option (list Z).

(** The body of [for(bit = 0; bit < frame_half; bit += 16)]. *)
Definition coarse_chunk (temp : list Z) (frame_half : nat) (s : stage_state)
    : option stage_state :=
  let frame_ptr := frame_ptr s in
  let temp_ptr := temp_ptr s in
  r_temp0 ← load temp temp_ptr;
  let temp_ptr := temp_ptr + 16 in
  r_temp1 ← load temp temp_ptr;
  let temp_ptr := temp_ptr + 16 in

  let shifted := _mm_bsrli_si128 r_temp0 1 in
  let shifted := _mm_and_si128 shifted mask_stage1 in
  let r_temp0 := _mm_xor_si128 shifted r_temp0 in
  let r_temp0 := _mm_shuffle_epi8 r_temp0 shuffle_separate in

  let shifted := _mm_bsrli_si128 r_temp1 1 in
  let shifted := _mm_and_si128 shifted mask_stage1 in
  let r_temp1 := _mm_xor_si128 shifted r_temp1 in
  let r_temp1 := _mm_shuffle_epi8 r_temp1 shuffle_separate in

  let r_frame0 := _mm_unpacklo_epi64 r_temp0 r_temp1 in
  f1 ← store (st_frame s) frame_ptr r_frame0;

  let r_frame1 := _mm_unpackhi_epi64 r_temp0 r_temp1 in
  f2 ← store f1 (frame_ptr + frame_half) r_frame1;
  let frame_ptr := frame_ptr + 16 in
  Some (StageState f2 frame_ptr temp_ptr).

(** The body of [for(branch ...)]: the [bit] loop runs for
    bit = 0, 16, 32, ... below [frame_half], then
    [frame_ptr += frame_half]. *)
Definition coarse_branch (temp : list Z) (frame_half : nat) (s : stage_state)
    : option stage_state :=
  s' ← for_loop (Nat.div (frame_half + 15) 16) (coarse_chunk temp frame_half) s;
  Some (StageState (st_frame s') (frame_ptr s' + frame_half) (temp_ptr s')).

(** One pass of the coarse tier, without the copy back. *)
Definition coarse_stage (frame temp : list Z) (num_branches frame_half : nat)
    : option (list Z) :=
  s ← for_loop num_branches (coarse_branch temp frame_half)
        (StageState frame 0 0);
  Some (st_frame s).

(** [while(stage > 4)] *)
Fixpoint coarse_loop (stage : nat) (frame temp : list Z)
    (frame_size num_branches frame_half : nat) : option coarse_result :=
  match stage with
  | S stage' =>
      if decide (4 < stage) then
        frame' ← coarse_stage frame temp num_branches frame_half;
        temp' ← memcpy temp frame' frame_size;
        coarse_loop stage' frame' temp' frame_size
          (Nat.shiftl num_branches 1) (Nat.shiftr frame_half 1)
      else Some (CoarseResult frame temp stage num_branches frame_half)
  | O => Some (CoarseResult frame temp stage num_branches frame_half)
  end.

(** The body of the last loop.  It works on the chunk that is in
    [r_temp0] and, in between, loads the next one: the load is executed in
    every iteration, the last one included, and faults like any other
    access when it leaves the buffer. *)
Definition fine_chunk (temp : list Z) (s : fine_state) : option fine_state :=
  let frame_ptr := fi_frame_ptr s in
  let temp_ptr := fi_temp_ptr s in
  let r_temp0 := fi_r_temp0 s in
  (* shuffle once for bit-reversal. *)
  let r_temp0 := _mm_shuffle_epi8 r_temp0 shuffle_stage4 in

  let shifted := _mm_bsrli_si128 r_temp0 8 in
  let shifted := _mm_and_si128 shifted mask_stage4 in
  let r_frame0 := _mm_xor_si128 shifted r_temp0 in

  (* start loading next chunk. *)
  r_temp0 ← load temp temp_ptr;
  let temp_ptr := temp_ptr + 16 in

  let shifted := _mm_bsrli_si128 r_frame0 4 in
  let shifted := _mm_and_si128 shifted mask_stage3 in
  let r_frame0 := _mm_xor_si128 shifted r_frame0 in

  let shifted := _mm_bsrli_si128 r_frame0 2 in
  let shifted := _mm_and_si128 shifted mask_stage2 in
  let r_frame0 := _mm_xor_si128 shifted r_frame0 in

  let shifted := _mm_bsrli_si128 r_frame0 1 in
  let shifted := _mm_and_si128 shifted mask_stage1 in
  let r_frame0 := _mm_xor_si128 shifted r_frame0 in

  (* store result of chunk. *)
  f ← store (fi_frame s) frame_ptr r_frame0;
  let frame_ptr := frame_ptr + 16 in
  Some (FineState f frame_ptr temp_ptr r_temp0).

(** What comes before the last loop: pointers reset, first chunk loaded. *)
Definition fine_init (frame temp : list Z) : option fine_state :=
  let frame_ptr := 0 in
  let temp_ptr := 0 in
  r_temp0 ← load temp temp_ptr;
  let temp_ptr := temp_ptr + 16 in
  Some (FineState frame frame_ptr temp_ptr r_temp0).

(** Everything up to the last loop. *)
Definition ssse3_coarse (frame temp frozen_bit_mask frozen_bits info_bits : list Z)
    (frame_size : nat) : option coarse_result :=
  let po2 := Z.to_nat (log2_of_power_of_2 (Z.of_nat frame_size)) in
  let stage := po2 in
  let frame_half := Nat.shiftr frame_size 1 in
  let num_branches := 1 in
  temp' ← interleave_frozen_and_info_bits temp frozen_bit_mask frozen_bits
            info_bits frame_size;
  coarse_loop stage frame temp' frame_size num_branches frame_half.

(** The whole encoder; it returns [frame] and [temp]. *)
Definition encodepolar_ssse3
    (frame temp frozen_bit_mask frozen_bits info_bits : list Z)
    (frame_size : nat) : option (list Z * list Z) :=
  c ← ssse3_coarse frame temp frozen_bit_mask frozen_bits info_bits frame_size;
  s0 ← fine_init (co_frame c) (co_temp c);
  s ← for_loop (co_num_branches c) (fine_chunk (co_temp c)) s0;
  Some (fi_frame s, co_temp c).
End ssse3.

Definition volk_8u_x3_encodepolar_8u_x2_u_ssse3 :=
  encodepolar_ssse3 _mm_loadu_si128 _mm_storeu_si128.

(** The aligned variant, for buffers at addresses [frame_addr] and
    [temp_addr]: loads are from [temp], stores are to [frame]. *)
Definition volk_8u_x3_encodepolar_8u_x2_a_ssse3 (frame_addr temp_addr : nat) :=
  encodepolar_ssse3 (_mm_load_si128 temp_addr) (_mm_store_si128 frame_addr).

(** ** The register arithmetic of the two tiers *)

(** The register arithmetic of [coarse_chunk] by itself: from [r_temp0] and
    [r_temp1] as loaded to [r_frame0] and [r_frame1] as stored. *)
Definition coarse_regs (r_temp0 r_temp1 : vec) : vec * vec :=
  let shifted := _mm_bsrli_si128 r_temp0 1 in
  let shifted := _mm_and_si128 shifted mask_stage1 in
  let r_temp0 := _mm_xor_si128 shifted r_temp0 in
  let r_temp0 := _mm_shuffle_epi8 r_temp0 shuffle_separate in
  let shifted := _mm_bsrli_si128 r_temp1 1 in
  let shifted := _mm_and_si128 shifted mask_stage1 in
  let r_temp1 := _mm_xor_si128 shifted r_temp1 in
  let r_temp1 := _mm_shuffle_epi8 r_temp1 shuffle_separate in
  (_mm_unpacklo_epi64 r_temp0 r_temp1, _mm_unpackhi_epi64 r_temp0 r_temp1).

(** The register arithmetic of [fine_chunk] by itself: from the chunk in
    [r_temp0] to the [r_frame0] that is stored. *)
Definition fine_regs (r_temp0 : vec) : vec :=
  let r_temp0 := _mm_shuffle_epi8 r_temp0 shuffle_stage4 in
  let shifted := _mm_bsrli_si128 r_temp0 8 in
  let shifted := _mm_and_si128 shifted mask_stage4 in
  let r_frame0 := _mm_xor_si128 shifted r_temp0 in
  let shifted := _mm_bsrli_si128 r_frame0 4 in
  let shifted := _mm_and_si128 shifted mask_stage3 in
  let r_frame0 := _mm_xor_si128 shifted r_frame0 in
  let shifted := _mm_bsrli_si128 r_frame0 2 in
  let shifted := _mm_and_si128 shifted mask_stage2 in
  let r_frame0 := _mm_xor_si128 shifted r_frame0 in
  let shifted := _mm_bsrli_si128 r_frame0 1 in
  let shifted := _mm_and_si128 shifted mask_stage1 in
  _mm_xor_si128 shifted r_frame0.

(** ** The transform as a function on lists *)

(** Cell [i] of the frame one pass writes, from the [temp] it reads: with
    branches of width [2 * half], cell [i] is in the branch that starts at
    [branchOffset] and is its local cell [r]. *)
Definition pass_at (half : nat) (temp : list Z) (i : nat) : Z :=
  let width := 2 * half in
  let branchOffset := (i / width) * width in
  let r := i mod width in
  if r <? half
  then Z.lxor (nth (branchOffset + 2 * r) temp 0%Z)
              (nth (branchOffset + 2 * r + 1) temp 0%Z)
  else nth (branchOffset + 2 * (r - half) + 1) temp 0%Z.

Definition pass (half : nat) (temp : list Z) : list Z :=
  map (pass_at half temp) (seq 0 (length temp)).

(** [n] passes, the first at [half], each next one at half of that. *)
Fixpoint passes (n half : nat) (temp : list Z) : list Z :=
  match n with
  | O => temp
  | S n' => passes n' (Nat.shiftr half 1) (pass half temp)
  end.

(** ** The passes of the scalar encoder, as the specification words them *)

(** What one pass writes: for each of [branchCount] contiguous branches of
    width [2 * half] and each local index [j] below [half]. *)
Definition pass_writes (branchCount half : nat) (temp frame : list Z) : Prop :=
  forall branch j, branch < branchCount -> j < half ->
    let branchOffset := branch * (2 * half) in
    exists x y,
      temp !! (branchOffset + 2 * j) = Some x /\
      temp !! (branchOffset + 2 * j + 1) = Some y /\
      frame !! (branchOffset + j) = Some (Z.lxor x y) /\
      frame !! (branchOffset + j + half) = Some y.

(** [scalar_passes n branchCount half (frame, temp) out]: [n] passes lead
    from the two buffers to [out]; after a pass the frame is also the next
    [temp], [branchCount] is doubled and [half] is halved. *)
Inductive scalar_passes :
    nat -> nat -> nat -> list Z * list Z -> list Z * list Z -> Prop :=
| scalar_passes_done branchCount half bufs :
    scalar_passes 0 branchCount half bufs bufs
| scalar_passes_step n branchCount half frame temp frame' out :
    length frame' = length frame ->
    pass_writes branchCount half temp frame' ->
    scalar_passes n (2 * branchCount) (half / 2) (frame', frame') out ->
    scalar_passes (S n) branchCount half (frame, temp) out.

(** ** The interleaving, as the specification words it *)

(** The number of frozen, and of information, positions in a mask. *)
Fixpoint count_frozen (mask : list Z) : nat :=
  match mask with
  | [] => 0
  | m :: mask' => (if decide (m = 0%Z) then 0 else 1) + count_frozen mask'
  end.

Fixpoint count_info (mask : list Z) : nat :=
  match mask with
  | [] => 0
  | m :: mask' => (if decide (m = 0%Z) then 1 else 0) + count_info mask'
  end.

(** The value position [i] receives: the next unread frozen value where the
    mask is nonzero, the next unread information value where it is zero. *)
Definition interleaved_at (mask frozen info : list Z) (i : nat) : option Z :=
  m ← mask !! i;
  if decide (m = 0%Z) then info !! count_info (take i mask)
  else frozen !! count_frozen (take i mask).

(** What happens at position [i]: [s] is the state of the loop when it
    reaches [i] and [s'] the state after it.  The cursors of [s] count the
    values read so far, so they point at the next unread ones; the value the
    position receives stays in the result [out], and the cursor that was
    read advances by one while the other stays. *)
Definition interleave_position (target mask frozen info out : list Z) (i : nat)
    : Prop :=
  exists s s' m,
    interleave_run target mask frozen info i = Some s /\
    interleave_run target mask frozen info (S i) = Some s' /\
    mask !! i = Some m /\
    il_bit s = i /\
    il_frozen s = count_frozen (take i mask) /\
    il_info s = count_info (take i mask) /\
    is_Some (out !! i) /\
    if decide (m = 0%Z)
    then out !! i = info !! il_info s /\
         il_info s' = S (il_info s) /\ il_frozen s' = il_frozen s
    else out !! i = frozen !! il_frozen s /\
         il_frozen s' = S (il_frozen s) /\ il_info s' = il_info s.

(** The cursors never go back: a later state has them at least as far. *)
Definition cursors_monotonic (target mask frozen info : list Z) (n : nat)
    : Prop :=
  forall i j si sj, i <= j -> j <= n ->
    interleave_run target mask frozen info i = Some si ->
    interleave_run target mask frozen info j = Some sj ->
    il_frozen si <= il_frozen sj /\ il_info si <= il_info sj.

(** The whole scan: it starts with both cursors at 0, succeeds, and treats
    every position from 0 to [n - 1] as above. *)
Definition interleaves_in_order (target mask frozen info : list Z) (n : nat)
    : Prop :=
  interleave_run target mask frozen info 0 = Some (IlState target 0 0 0) /\
  cursors_monotonic target mask frozen info n /\
  exists out,
    interleave_frozen_and_info_bits target mask frozen info n = Some out /\
    length out = length target /\
    forall i, i < n -> interleave_position target mask frozen info out i.

(** Inputs that meet the kernel's contract for a frame of [n] cells. *)
Record valid_input (n : nat) (frame temp mask frozen info : list Z) : Prop := {
  vi_frame : length frame = n;
  vi_temp : length temp = n;
  vi_mask : length mask = n;
  vi_frozen : count_frozen mask = length frozen;
  vi_info : n - count_frozen mask = length info
}.

(** ** The load past the end of [temp]

    [last_load_past_end load store frame temp mask frozen info n]: on a
    [temp] of [n] bytes the encoder gets as far as the last of the [n / 16]
    iterations of its last loop, which starts in a state [s] whose
    [temp_ptr] is [n]; the load of that iteration, at offset [n], is out of
    range, and with it the iteration and the encoder fault.  What the load
    yields is dead: under any load primitive [load'] that agrees with
    [load] inside the buffer and yields a register [r] at offset [n], the
    encoder reaches the same state [s], the iteration completes with [r] in
    [r_temp0], and the frame it leaves is [code], one and the same for
    every [load'] and every [r]. *)
Definition last_load_past_end
    (load : list Z -> nat -> option vec)
    (store : list Z -> nat -> vec -> option (list Z))
    (frame temp mask frozen info : list Z) (n : nat) : Prop :=
  exists c s code,
    ssse3_coarse load store frame temp mask frozen info n = Some c /\
    length (co_temp c) = n /\
    16 * co_num_branches c = n /\
    (s0 ← fine_init load (co_frame c) (co_temp c);
     for_loop (co_num_branches c - 1) (fine_chunk load store (co_temp c)) s0)
    = Some s /\
    fi_temp_ptr s = n /\
    load (co_temp c) n = None /\
    fine_chunk load store (co_temp c) s = None /\
    encodepolar_ssse3 load store frame temp mask frozen info n = None /\
    length code = n /\
    forall (load' : list Z -> nat -> option vec) (r : vec),
      (forall m p, p + 16 <= length m -> load' m p = load m p) ->
      load' (co_temp c) n = Some r ->
      ssse3_coarse load' store frame temp mask frozen info n = Some c /\
      (s0 ← fine_init load' (co_frame c) (co_temp c);
       for_loop (co_num_branches c - 1) (fine_chunk load' store (co_temp c)) s0)
      = Some s /\
      exists s',
        fine_chunk load' store (co_temp c) s = Some s' /\
        fi_r_temp0 s' = r /\
        fi_frame s' = code /\
        encodepolar_ssse3 load' store frame temp mask frozen info n
        = Some (code, co_temp c).

(** ** Loop invariants *)

(** The shape the branch loops of the scalar pass and of the coarse tier
    share: [k] runs of a body, then [frame_ptr += half]. *)
Definition chunked_branch (k half : nat) (body : stage_state -> option stage_state)
    (s : stage_state) : option stage_state :=
  s' ← for_loop k body s;
  Some (StageState (st_frame s') (frame_ptr s' + half) (temp_ptr s')).

(** [bits_done temp half fp tp n f f']: the frame [f'] is [f] after the [n]
    bits of a branch that start at [frame_ptr = fp] and [temp_ptr = tp]:
    [n] cells from [fp] and [n] cells from [fp + half] were written, the
    others are as in [f]. *)
Definition bits_done (temp : list Z) (half fp tp n : nat) (f f' : list Z) : Prop :=
  length f' = length f /\
  (forall j, j < n ->
     f' !! (fp + j)
     = Some (Z.lxor (nth (tp + 2 * j) temp 0%Z) (nth (tp + 2 * j + 1) temp 0%Z)) /\
     f' !! (fp + half + j) = Some (nth (tp + 2 * j + 1) temp 0%Z)) /\
  (forall i, i < fp \/ fp + n <= i < fp + half \/ fp + half + n <= i ->
     f' !! i = f !! i).

(** [cells_done temp half lo hi f f']: [f'] holds the pass of [temp] in the
    cells from [lo] to [hi - 1] and is [f] elsewhere. *)
Definition cells_done (temp : list Z) (half lo hi : nat) (f f' : list Z) : Prop :=
  length f' = length f /\
  (forall i, lo <= i < hi -> f' !! i = Some (pass_at half temp i)) /\
  (forall i, i < lo \/ hi <= i -> f' !! i = f !! i).

(** ** Proof tools *)

(** Two lanes, written with [Z.lxor], [Z.land] and constants, are equal when
    they agree bit by bit. *)
Ltac lane_eq :=
  apply Z.bits_inj'; intros ? _;
  repeat first [rewrite Z.lxor_spec | rewrite Z.land_spec | rewrite Z.bits_0];
  btauto.

Ltac lanes := repeat (apply (f_equal2 cons); [ lane_eq | ]); try reflexivity.

(** Linear arithmetic with division and remainder by constants. *)
Ltac mlia := zify; Z.to_euclidean_division_equations; lia.

(** A list of literal bits. *)
Ltac all_bits :=
  repeat (apply List.Forall_cons; [first [left; reflexivity | right; reflexivity] |]);
  apply List.Forall_nil.

(** Name the 16 lanes of a register of known length. *)
Ltac lanes16 v H :=
  do 16 (destruct v as [|? v]; [discriminate H|]);
  destruct v; [clear H | discriminate H].

(** ** Buffers on which the SSSE3 encoders stay in bounds *)

(** As [valid_input], but with a [temp] that has 16 bytes or more after the
    [n] the contract asks for: the bytes the last load of the last loop
    reads. *)
Record valid_input_ssse3 (n : nat) (frame temp mask frozen info : list Z)
    : Prop := {
  vs_frame : length frame = n;
  vs_temp : n + 16 <= length temp;
  vs_mask : length mask = n;
  vs_frozen : count_frozen mask = length frozen;
  vs_info : n - count_frozen mask = length info
}.


(** ** Reading an interleaved buffer back *)

(** The cells at the frozen positions of a mask, in order, and the cells at
    its information positions. *)
Fixpoint select_frozen (mask cells : list Z) : list Z :=
  match mask, cells with
  | m :: mask', c :: cells' =>
      if decide (m = 0%Z) then select_frozen mask' cells'
      else c :: select_frozen mask' cells'
  | _, _ => []
  end.

Fixpoint select_info (mask cells : list Z) : list Z :=
  match mask, cells with
  | m :: mask', c :: cells' =>
      if decide (m = 0%Z) then c :: select_info mask' cells'
      else select_info mask' cells'
  | _, _ => []
  end.

(** ** Lists cell by cell *)

(** [inter e o] alternates the cells of [e] and [o]: [e] at the even
    positions, [o] at the odd ones. *)
Fixpoint inter (e o : list Z) : list Z :=
  match e, o with
  | x :: e', y :: o' => x :: y :: inter e' o'
  | _, _ => []
  end.

(** ** [print_vector_elements]

    What the helper prints is the list of the character codes it sends to
    [printf], in order. *)

(** A hexadecimal digit, lower case. *)
Definition hex_digit (d : Z) : Z :=
  if (d <? 10)%Z then (48 + d)%Z else (87 + d)%Z.

(** [printf("%02x ", (int) b)] for an [unsigned char] [b]: two digits and a
    space. *)
Definition printf_02x (b : Z) : list Z :=
  [hex_digit (b / 16); hex_digit (b mod 16); 32%Z].

(** The pointer [buf], the loop variable [i] and the output so far. *)
Record print_state := PrintState {
  pr_buf : nat;
  pr_i : nat;
  pr_out : list Z
}.

(** The body of [for(i = 0; i < 8; i++)]. *)
Definition print_cell (buf : list Z) (s : print_state) : option print_state :=
  b ← buf !! (pr_buf s + pr_i s);
  Some (PrintState (pr_buf s) (S (pr_i s)) (pr_out s ++ printf_02x b)).

(** The body of [for(l = 0; l < 8; l++)]: three spaces, eight cells, then
    [buf += 8]. *)
Definition print_group (buf : list Z) (s : print_state) : option print_state :=
  let out := pr_out s ++ [32; 32; 32]%Z in
  s' ← for_loop 8 (print_cell buf) (PrintState (pr_buf s) 0 out);
  Some (PrintState (pr_buf s' + 8) (pr_i s') (pr_out s')).

(** [elems] is not used; the function starts with [buf += 64] and ends with
    a newline. *)
Definition print_vector_elements (buf : list Z) (elems : Z) : option (list Z) :=
  s ← for_loop 8 (print_group buf) (PrintState (0 + 64) 0 []);
  Some (pr_out s ++ [10%Z]).

(** The text for 64 bytes: eight groups of three spaces and eight cells,
    and a newline. *)
Definition dump_group (bytes : list Z) : list Z :=
  [32; 32; 32]%Z ++ concat (map printf_02x bytes).

Definition dump (bytes : list Z) : list Z :=
  concat (map (fun l => dump_group (take 8 (drop (8 * l) bytes))) (seq 0 8))
  ++ [10%Z].
(** * Properties *)

(** ** Arithmetic and loops *)

Lemma shiftr1 n : Nat.shiftr n 1 = n / 2.
Proof. rewrite Nat.shiftr_div_pow2. reflexivity. Qed.

Lemma shiftl1 n : Nat.shiftl n 1 = 2 * n.
Proof. rewrite Nat.shiftl_mul_pow2. simpl. lia. Qed.

Lemma pow2_pos k : 0 < 2 ^ k.
Proof. induction k; simpl; lia. Qed.

Lemma pow2_half k : 2 ^ S k / 2 = 2 ^ k.
Proof. rewrite Nat.pow_succ_r'. rewrite Nat.mul_comm, Nat.div_mul; lia. Qed.

Lemma for_loop_snoc {A} (body : A -> option A) n s :
  for_loop (S n) body s = for_loop n body s ≫= body.
Proof.
  revert s. induction n as [|n IH]; intros s.
  - simpl. destruct (body s); reflexivity.
  - change (for_loop (S (S n)) body s) with (body s ≫= for_loop (S n) body).
    destruct (body s) as [s1|] eqn:E; simpl; [|rewrite E; reflexivity].
    rewrite E. simpl. apply IH.
Qed.

Lemma store8_Some m i v : i < length m -> store8 m i v = Some (<[i := v]> m).
Proof. intros H. unfold store8. rewrite decide_True; auto. Qed.

Lemma memcpy_full dst src :
  length dst = length src -> memcpy dst src (length src) = Some src.
Proof.
  intros H. unfold memcpy. rewrite decide_True by lia.
  rewrite firstn_all, drop_ge by lia. rewrite app_nil_r. reflexivity.
Qed.

(** ** [log2_of_power_of_2] *)

Lemma log2_of_power_of_2_nat (k : nat) :
  k < 32 -> log2_of_power_of_2 (2 ^ Z.of_nat k) = Z.of_nat k.
Proof.
  intros H.
  do 32 (destruct k as [|k]; [vm_compute; reflexivity|]). lia.
Qed.

Lemma stage_of_pow2 (k : nat) :
  k < 32 -> Z.to_nat (log2_of_power_of_2 (Z.of_nat (2 ^ k))) = k.
Proof.
  intros H. rewrite Nat2Z.inj_pow. change (Z.of_nat 2) with 2%Z.
  rewrite log2_of_power_of_2_nat by assumption. apply Nat2Z.id.
Qed.

(** C7: on an exact power of two, [2^k] with [k] from 0 to 31,
    [log2_of_power_of_2] returns the exponent [k]. *)
Theorem log2_of_power_of_2_exponent (k : Z) :
  (0 <= k <= 31)%Z -> log2_of_power_of_2 (2 ^ k) = k.
Proof.
  intros H. rewrite <- (Z2Nat.id k) by lia.
  apply log2_of_power_of_2_nat. lia.
Qed.

Lemma log2_of_power_of_2_exponent_witness :
  (0 <= 5 <= 31)%Z /\ log2_of_power_of_2 (2 ^ 5) = 5%Z.
Proof. split; [lia | apply (log2_of_power_of_2_exponent 5); lia]. Defined.

(** ** [interleave_frozen_and_info_bits] *)

Lemma count_frozen_app l1 l2 :
  count_frozen (l1 ++ l2) = count_frozen l1 + count_frozen l2.
Proof. induction l1 as [|m l1 IH]; simpl; [reflexivity | rewrite IH; lia]. Qed.

Lemma count_info_app l1 l2 :
  count_info (l1 ++ l2) = count_info l1 + count_info l2.
Proof. induction l1 as [|m l1 IH]; simpl; [reflexivity | rewrite IH; lia]. Qed.

Lemma count_frozen_info mask : count_frozen mask + count_info mask = length mask.
Proof. induction mask as [|m mask IH]; simpl; [reflexivity | case_decide; lia]. Qed.

Lemma count_frozen_take_S mask i m :
  mask !! i = Some m ->
  count_frozen (take (S i) mask)
  = count_frozen (take i mask) + (if decide (m = 0%Z) then 0 else 1).
Proof.
  intros H. rewrite (take_S_r _ _ _ H), count_frozen_app. simpl. lia.
Qed.

Lemma count_info_take_S mask i m :
  mask !! i = Some m ->
  count_info (take (S i) mask)
  = count_info (take i mask) + (if decide (m = 0%Z) then 1 else 0).
Proof.
  intros H. rewrite (take_S_r _ _ _ H), count_info_app. simpl. lia.
Qed.

Lemma count_frozen_take_le mask i : count_frozen (take i mask) <= count_frozen mask.
Proof.
  rewrite <- (take_drop i mask) at 2. rewrite count_frozen_app. lia.
Qed.

Lemma count_info_take_le mask i : count_info (take i mask) <= count_info mask.
Proof.
  rewrite <- (take_drop i mask) at 2. rewrite count_info_app. lia.
Qed.

Lemma count_frozen_take_mono mask i j :
  i <= j -> count_frozen (take i mask) <= count_frozen (take j mask).
Proof.
  intros H. replace (take i mask) with (take i (take j mask)).
  - apply count_frozen_take_le.
  - rewrite take_take. f_equal. lia.
Qed.

Lemma count_info_take_mono mask i j :
  i <= j -> count_info (take i mask) <= count_info (take j mask).
Proof.
  intros H. replace (take i mask) with (take i (take j mask)).
  - apply count_info_take_le.
  - rewrite take_take. f_equal. lia.
Qed.

(** The state of the loop after [i] iterations. *)
Lemma interleave_run_inv target mask frozen info i :
  i <= length mask -> i <= length target ->
  count_frozen mask <= length frozen -> count_info mask <= length info ->
  exists t,
    interleave_run target mask frozen info i
    = Some (IlState t i (count_frozen (take i mask)) (count_info (take i mask))) /\
    length t = length target /\
    (forall k, k < i ->
       t !! k = interleaved_at mask frozen info k /\ is_Some (t !! k)) /\
    (forall k, i <= k -> t !! k = target !! k).
Proof.
  intros Hm Ht Hf Hi. induction i as [|i IH].
  - exists target. repeat split; try reflexivity; intros; lia.
  - destruct IH as (t & Hrun & Hlen & Hlo & Hhi); [lia | lia |].
    unfold interleave_run in *. rewrite for_loop_snoc, Hrun. simpl.
    destruct (lookup_lt_is_Some_2 mask i) as [m Hmi]; [lia|].
    unfold interleave_step. simpl. rewrite Hmi. simpl.
    pose proof (count_frozen_take_S mask i m Hmi) as Ef.
    pose proof (count_info_take_S mask i m Hmi) as Ei.
    pose proof (count_frozen_take_le mask (S i)) as Lf.
    pose proof (count_info_take_le mask (S i)) as Li.
    assert (Hat : interleaved_at mask frozen info i
                  = if decide (m = 0%Z) then info !! count_info (take i mask)
                    else frozen !! count_frozen (take i mask)).
    { unfold interleaved_at. rewrite Hmi. reflexivity. }
    destruct (decide (m = 0%Z)) as [Hz|Hz].
    + destruct (lookup_lt_is_Some_2 info (count_info (take i mask))) as [v Hv];
        [lia|].
      rewrite Hv. simpl. rewrite store8_Some by lia. simpl.
      exists (<[i := v]> t). rewrite Ef, Ei, Nat.add_0_r, Nat.add_1_r.
      split; [reflexivity|]. split; [rewrite length_insert; exact Hlen|].
      split.
      * intros k Hk. destruct (decide (k = i)) as [->|Hne].
        -- rewrite list_lookup_insert_eq by lia. rewrite Hat, Hv. eauto.
        -- rewrite list_lookup_insert_ne by lia. apply Hlo. lia.
      * intros k Hk. rewrite list_lookup_insert_ne by lia. apply Hhi. lia.
    + destruct (lookup_lt_is_Some_2 frozen (count_frozen (take i mask))) as [v Hv];
        [lia|].
      rewrite Hv. simpl. rewrite store8_Some by lia. simpl.
      exists (<[i := v]> t). rewrite Ef, Ei, Nat.add_0_r, Nat.add_1_r.
      split; [reflexivity|]. split; [rewrite length_insert; exact Hlen|].
      split.
      * intros k Hk. destruct (decide (k = i)) as [->|Hne].
        -- rewrite list_lookup_insert_eq by lia. rewrite Hat, Hv. eauto.
        -- rewrite list_lookup_insert_ne by lia. apply Hlo. lia.
      * intros k Hk. rewrite list_lookup_insert_ne by lia. apply Hhi. lia.
Qed.

Lemma valid_input_counts n frame temp mask frozen info :
  valid_input n frame temp mask frozen info ->
  count_frozen mask <= length frozen /\ count_info mask <= length info.
Proof.
  intros [_ _ Hm Hf Hi]. pose proof (count_frozen_info mask). lia.
Qed.

(** The buffer the interleaving leaves in [temp]. *)
Lemma interleave_valid n frame temp mask frozen info :
  valid_input n frame temp mask frozen info ->
  exists t,
    interleave_frozen_and_info_bits temp mask frozen info n = Some t /\
    length t = n /\
    (forall k, k < n ->
       t !! k = interleaved_at mask frozen info k /\ is_Some (t !! k)).
Proof.
  intros V. destruct (valid_input_counts _ _ _ _ _ _ V) as [Hf Hi].
  destruct V as [_ Ht Hm _ _].
  destruct (interleave_run_inv temp mask frozen info n) as (t & Hrun & Hlen & Hlo & _);
    try lia.
  exists t. unfold interleave_frozen_and_info_bits. rewrite Hrun. simpl.
  repeat split; try apply Hlo; auto; lia.
Qed.

(** C3: with as many frozen values as the mask has nonzero cells and as many
    information values as it has zero cells, the interleaving scans the
    positions 0 to N-1 in order; a position whose mask cell is nonzero
    receives the next unread frozen value and the frozen cursor advances,
    any other receives the next unread information value and the
    information cursor advances; the cursors start at 0 and never go back,
    and every position of the target is written. *)
Theorem interleave_scans_in_order (n : nat) (target mask frozen info : list Z) :
  length mask = n -> n <= length target ->
  count_frozen mask = length frozen -> count_info mask = length info ->
  interleaves_in_order target mask frozen info n.
Proof.
  intros Hm Ht Hf Hi. split; [reflexivity|]. split.
  { intros i j si sj Hij Hj Hsi Hsj.
    destruct (interleave_run_inv target mask frozen info i) as (ti & Ei & _);
      try lia.
    destruct (interleave_run_inv target mask frozen info j) as (tj & Ej & _);
      try lia.
    rewrite Ei in Hsi. rewrite Ej in Hsj.
    injection Hsi as <-. injection Hsj as <-. simpl.
    split; [apply count_frozen_take_mono | apply count_info_take_mono];
      exact Hij. }
  destruct (interleave_run_inv target mask frozen info n)
    as (out & Hrun & Hlen & Hlo & _); try lia.
  exists out. unfold interleave_frozen_and_info_bits. rewrite Hrun. simpl.
  split; [reflexivity|]. split; [exact Hlen|].
  intros i Hin.
  destruct (interleave_run_inv target mask frozen info i)
    as (t & Hi0 & _); try lia.
  destruct (interleave_run_inv target mask frozen info (S i))
    as (t' & Hi1 & _); try lia.
  destruct (lookup_lt_is_Some_2 mask i) as [m Hmi]; [lia|].
  destruct (Hlo i Hin) as [Hv Hs].
  eexists _, _, m. split; [exact Hi0|]. split; [exact Hi1|].
  split; [exact Hmi|]. simpl. do 3 (split; [reflexivity|]).
  split; [exact Hs|].
  rewrite Hv. unfold interleaved_at. rewrite Hmi. simpl.
  rewrite (count_frozen_take_S _ _ _ Hmi), (count_info_take_S _ _ _ Hmi).
  destruct (decide (m = 0%Z)); repeat split; lia.
Qed.

Lemma interleave_scans_in_order_witness :
  interleaves_in_order [9; 9; 9; 9]%Z [1; 0; 0; 255]%Z [0; 1]%Z [1; 0]%Z 4.
Proof. apply (interleave_scans_in_order 4); simpl; (reflexivity || lia). Defined.

(** ** One pass, for any loop that writes a branch chunk by chunk *)

Lemma bind_some {A B} (f : A -> option B) (x : A) : Some x ≫= f = f x.
Proof. reflexivity. Qed.

Lemma bits_done_refl temp half fp tp f : bits_done temp half fp tp 0 f f.
Proof. repeat split; intros; [lia | lia]. Qed.

Lemma bits_done_trans temp half fp tp n m f f1 f2 :
  n + m <= half ->
  bits_done temp half fp tp n f f1 ->
  bits_done temp half (fp + n) (tp + 2 * n) m f1 f2 ->
  bits_done temp half fp tp (n + m) f f2.
Proof.
  intros Hnm (L1 & W1 & U1) (L2 & W2 & U2). split; [congruence|]. split.
  - intros j Hj. destruct (decide (j < n)) as [Hlt|Hge].
    + rewrite !U2 by lia. apply W1. exact Hlt.
    + destruct (W2 (j - n)) as [Wa Wb]; [lia|].
      replace (fp + n + (j - n)) with (fp + j) in Wa by lia.
      replace (fp + n + half + (j - n)) with (fp + half + j) in Wb by lia.
      replace (tp + 2 * n + 2 * (j - n)) with (tp + 2 * j) in Wa, Wb by lia.
      split; assumption.
  - intros i Hi. rewrite U2 by lia. apply U1. lia.
Qed.

Lemma pass_at_lo half temp b j :
  j < half ->
  pass_at half temp (b * (2 * half) + j)
  = Z.lxor (nth (b * (2 * half) + 2 * j) temp 0%Z)
           (nth (b * (2 * half) + 2 * j + 1) temp 0%Z).
Proof.
  intros Hj. unfold pass_at. cbv zeta.
  rewrite Nat.div_add_l by lia. rewrite Nat.div_small by lia.
  rewrite (Nat.add_comm (b * _) j), Nat.Div0.mod_add, Nat.mod_small by lia.
  rewrite Nat.add_0_r. destruct (Nat.ltb_spec j half); [reflexivity | lia].
Qed.

Lemma pass_at_hi half temp b j :
  j < half ->
  pass_at half temp (b * (2 * half) + half + j)
  = nth (b * (2 * half) + 2 * j + 1) temp 0%Z.
Proof.
  intros Hj. unfold pass_at. cbv zeta.
  rewrite <- Nat.add_assoc.
  rewrite Nat.div_add_l by lia. rewrite Nat.div_small by lia.
  rewrite (Nat.add_comm (b * _) (half + j)), Nat.Div0.mod_add, Nat.mod_small by lia.
  rewrite Nat.add_0_r. destruct (Nat.ltb_spec (half + j) half); [lia|].
  replace (half + j - half) with j by lia. reflexivity.
Qed.

Lemma pass_length half temp : length (pass half temp) = length temp.
Proof. unfold pass. rewrite length_map, length_seq. reflexivity. Qed.

Lemma pass_lookup half temp i :
  i < length temp -> pass half temp !! i = Some (pass_at half temp i).
Proof.
  intros H. unfold pass. rewrite list_lookup_fmap, lookup_seq_lt by lia.
  reflexivity.
Qed.

Section chunked_pass.
Variable temp : list Z.
Variables half q k : nat.
Variable body : stage_state -> option stage_state.

Hypothesis q_pos : 0 < q.
Hypothesis chunks : k * q = half.
Hypothesis body_ok : forall f fp tp,
  fp + half + q <= length f -> tp + 2 * q <= length temp ->
  fp mod q = 0 -> tp mod q = 0 ->
  exists f', body (StageState f fp tp) = Some (StageState f' (fp + q) (tp + 2 * q)) /\
             bits_done temp half fp tp q f f'.

Lemma chunks_done c f fp tp :
  c * q <= half ->
  fp + half + c * q <= length f -> tp + 2 * (c * q) <= length temp ->
  fp mod q = 0 -> tp mod q = 0 ->
  exists f', for_loop c body (StageState f fp tp)
             = Some (StageState f' (fp + c * q) (tp + 2 * (c * q))) /\
             bits_done temp half fp tp (c * q) f f'.
Proof.
  intros Hc Hf Ht Hfq Htq. induction c as [|c IH].
  - exists f. simpl. rewrite !Nat.add_0_r. split; [reflexivity|].
    apply bits_done_refl.
  - destruct IH as (f1 & Hrun & Hdone); [simpl in *; lia ..|].
    rewrite for_loop_snoc, Hrun, bind_some.
    assert (L1 : length f1 = length f) by apply Hdone.
    destruct (body_ok f1 (fp + c * q) (tp + 2 * (c * q))) as (f2 & Hb & Hd2).
    + simpl in *. lia.
    + simpl in *. lia.
    + rewrite Nat.Div0.mod_add. exact Hfq.
    + replace (2 * (c * q)) with ((2 * c) * q) by lia.
      rewrite Nat.Div0.mod_add. exact Htq.
    + exists f2. rewrite Hb. split.
      * f_equal. f_equal; simpl; lia.
      * replace (S c * q) with (c * q + q) by (simpl; lia).
        apply bits_done_trans with f1; [simpl in *; lia | assumption | assumption].
Qed.

Lemma branch_done b f :
  length f = length temp -> (b + 1) * (2 * half) <= length temp ->
  exists f', chunked_branch k half body (StageState f (b * (2 * half)) (b * (2 * half)))
             = Some (StageState f' ((b + 1) * (2 * half)) ((b + 1) * (2 * half))) /\
             cells_done temp half (b * (2 * half)) ((b + 1) * (2 * half)) f f'.
Proof.
  intros Hlen Hb.
  assert (Hdiv : (b * (2 * half)) mod q = 0).
  { rewrite <- chunks. replace (b * (2 * (k * q))) with ((b * 2 * k) * q) by lia.
    apply Nat.Div0.mod_mul. }
  destruct (chunks_done k f (b * (2 * half)) (b * (2 * half)))
    as (f' & Hrun & (L & W & U)); try lia.
  exists f'. unfold chunked_branch. rewrite Hrun, bind_some.
  cbn [st_frame frame_ptr temp_ptr]. rewrite chunks. split.
  - f_equal. f_equal; lia.
  - rewrite chunks in W, U. split; [exact L|]. split.
    + intros i Hi. destruct (decide (i < b * (2 * half) + half)) as [Hlo|Hhi].
      * destruct (W (i - b * (2 * half))) as [Wa _]; [lia|].
        replace (b * (2 * half) + (i - b * (2 * half))) with i in Wa by lia.
        rewrite Wa. f_equal.
        replace i with (b * (2 * half) + (i - b * (2 * half))) at 3 by lia.
        rewrite pass_at_lo by lia. reflexivity.
      * destruct (W (i - b * (2 * half) - half)) as [_ Wb]; [lia|].
        replace (b * (2 * half) + half + (i - b * (2 * half) - half))
          with i in Wb by lia.
        rewrite Wb. f_equal.
        replace i with (b * (2 * half) + half + (i - b * (2 * half) - half))
          at 2 by lia.
        rewrite pass_at_hi by lia. reflexivity.
    + intros i Hi. apply U. lia.
Qed.

Lemma branches_done nb f :
  length f = length temp -> nb * (2 * half) <= length temp ->
  exists f', for_loop nb (chunked_branch k half body) (StageState f 0 0)
             = Some (StageState f' (nb * (2 * half)) (nb * (2 * half))) /\
             cells_done temp half 0 (nb * (2 * half)) f f'.
Proof.
  intros Hlen Hnb. induction nb as [|nb IH].
  - exists f. split; [reflexivity|]. repeat split; intros; lia.
  - destruct IH as (f1 & Hrun & (L1 & W1 & U1)); [simpl in *; lia|].
    rewrite for_loop_snoc, Hrun, bind_some.
    destruct (branch_done nb f1) as (f2 & Hb & (L2 & W2 & U2));
      [congruence | simpl in *; lia |].
    exists f2. rewrite Hb. replace (nb + 1) with (S nb) in * by lia.
    split; [reflexivity|]. split; [congruence|]. split.
    + intros i Hi. destruct (decide (i < nb * (2 * half))).
      * rewrite U2 by lia. apply W1. lia.
      * apply W2. lia.
    + intros i Hi. rewrite U2 by lia. apply U1. simpl in *. lia.
Qed.

(** With the buffers as long as the branches together, the frame that
    results is the pass of [temp], whatever the frame held before. *)
Lemma stage_is_pass nb f :
  length f = length temp -> length temp = nb * (2 * half) ->
  exists s, for_loop nb (chunked_branch k half body) (StageState f 0 0) = Some s /\
            st_frame s = pass half temp.
Proof.
  intros Hlen Hnb.
  destruct (branches_done nb f) as (f' & Hrun & (L & W & _)); [lia | lia |].
  eexists. split; [exact Hrun|]. simpl.
  apply list_eq. intros i. destruct (decide (i < length temp)) as [Hi|Hi].
  - rewrite pass_lookup by lia. apply W. lia.
  - rewrite !lookup_ge_None_2; [reflexivity | rewrite pass_length; lia | lia].
Qed.
End chunked_pass.

(** ** The scalar pass and the scalar encoder *)

Lemma stage_bit_ok temp half f fp tp :
  0 < half ->
  fp + half + 1 <= length f -> tp + 2 * 1 <= length temp ->
  fp mod 1 = 0 -> tp mod 1 = 0 ->
  exists f', stage_bit temp half (StageState f fp tp)
             = Some (StageState f' (fp + 1) (tp + 2 * 1)) /\
             bits_done temp half fp tp 1 f f'.
Proof.
  intros Hh Hf Ht _ _.
  destruct (lookup_lt_is_Some_2 temp tp) as [x Hx]; [lia|].
  destruct (lookup_lt_is_Some_2 temp (tp + 1)) as [y Hy]; [lia|].
  unfold stage_bit. cbn [st_frame frame_ptr temp_ptr].
  rewrite Hx, bind_some, Hy, bind_some.
  rewrite store8_Some, bind_some by lia.
  rewrite store8_Some, bind_some by (rewrite length_insert; lia).
  eexists. split; [reflexivity|].
  split; [rewrite !length_insert; reflexivity|]. split.
  - intros j Hj. replace j with 0 by lia. rewrite !Nat.add_0_r.
    rewrite (nth_lookup_Some _ _ 0%Z _ Hx).
    rewrite (nth_lookup_Some _ _ 0%Z _ Hy).
    split.
    + rewrite list_lookup_insert_ne by lia. apply list_lookup_insert_eq. lia.
    + apply list_lookup_insert_eq. rewrite length_insert. lia.
  - intros i Hi. rewrite !list_lookup_insert_ne by lia. reflexivity.
Qed.

Lemma encodepolar_single_stage_pass frame temp num_branches frame_half :
  0 < frame_half ->
  length frame = length temp -> length temp = num_branches * (2 * frame_half) ->
  encodepolar_single_stage frame temp num_branches frame_half
  = Some (pass frame_half temp).
Proof.
  intros Hh Hf Ht.
  destruct (stage_is_pass temp frame_half 1 frame_half (stage_bit temp frame_half))
    with (nb := num_branches) (f := frame) as (s & Hrun & Hs);
    [lia | lia | | assumption | assumption |].
  - intros f fp tp. apply stage_bit_ok. exact Hh.
  - unfold encodepolar_single_stage.
    change (stage_branch temp frame_half)
      with (chunked_branch frame_half frame_half (stage_bit temp frame_half)).
    rewrite Hrun, bind_some, Hs. reflexivity.
Qed.

Lemma passes_length n half temp : length (passes n half temp) = length temp.
Proof.
  revert half temp. induction n as [|n IH]; intros half temp; simpl.
  - reflexivity.
  - rewrite IH. apply pass_length.
Qed.

(** The [while(stage)] loop, with [frame_half] and [num_branches] as the
    encoder has them when [stage] passes remain. *)
Lemma generic_loop_passes stage frame temp num_branches :
  length frame = length temp ->
  length temp = num_branches * 2 ^ stage ->
  generic_loop stage frame temp (length temp) num_branches (2 ^ stage / 2)
  = Some (match stage with
          | O => (frame, temp)
          | S _ => (passes stage (2 ^ stage / 2) temp,
                    passes stage (2 ^ stage / 2) temp)
          end).
Proof.
  revert frame temp num_branches.
  induction stage as [|stage IH]; intros frame temp nb Hf Ht.
  - reflexivity.
  - cbn [generic_loop]. rewrite pow2_half.
    rewrite encodepolar_single_stage_pass;
      [| apply pow2_pos | assumption | rewrite Ht, Nat.pow_succ_r'; lia].
    rewrite bind_some.
    rewrite <- (pass_length (2 ^ stage) temp) at 1.
    rewrite memcpy_full by (rewrite pass_length; reflexivity).
    rewrite bind_some, shiftl1, shiftr1.
    rewrite <- (pass_length (2 ^ stage) temp) at 1.
    rewrite IH;
      [| reflexivity | rewrite pass_length, Ht, Nat.pow_succ_r'; lia].
    cbn [passes]. rewrite shiftr1.
    destruct stage; reflexivity.
Qed.

(** The scalar encoder on valid inputs: [t] is the interleaved buffer. *)
Lemma generic_encodes k frame temp mask frozen info :
  k < 32 -> valid_input (2 ^ k) frame temp mask frozen info ->
  exists t,
    interleave_frozen_and_info_bits temp mask frozen info (2 ^ k) = Some t /\
    length t = 2 ^ k /\
    (forall i, i < 2 ^ k ->
       t !! i = interleaved_at mask frozen info i /\ is_Some (t !! i)) /\
    volk_8u_x3_encodepolar_8u_x2_generic frame temp mask frozen info (2 ^ k)
    = Some (match k with
            | O => (frame, t)
            | S _ => (passes k (2 ^ k / 2) t, passes k (2 ^ k / 2) t)
            end).
Proof.
  intros Hk V. destruct (interleave_valid _ _ _ _ _ _ V) as (t & Hil & Hlen & Hat).
  exists t. split; [exact Hil|]. split; [exact Hlen|]. split; [exact Hat|].
  unfold volk_8u_x3_encodepolar_8u_x2_generic. cbv zeta.
  rewrite Hil, bind_some, stage_of_pow2, shiftr1 by assumption.
  rewrite <- Hlen at 1.
  apply generic_loop_passes; [destruct V; congruence | lia].
Qed.

(** ** The passes of the scalar encoder *)

Lemma pass_writes_pass branchCount half temp :
  length temp = branchCount * (2 * half) ->
  pass_writes branchCount half temp (pass half temp).
Proof.
  intros Hlen branch j Hb Hj. cbv zeta.
  assert (Hin : branch * (2 * half) + 2 * half <= length temp) by nia.
  destruct (lookup_lt_is_Some_2 temp (branch * (2 * half) + 2 * j)) as [x Hx];
    [lia|].
  destruct (lookup_lt_is_Some_2 temp (branch * (2 * half) + 2 * j + 1)) as [y Hy];
    [lia|].
  exists x, y. split; [exact Hx|]. split; [exact Hy|].
  rewrite !pass_lookup by lia.
  replace (branch * (2 * half) + j + half)
    with (branch * (2 * half) + half + j) by lia.
  rewrite pass_at_lo, pass_at_hi by assumption.
  rewrite (nth_lookup_Some _ _ 0%Z _ Hx), (nth_lookup_Some _ _ 0%Z _ Hy).
  split; reflexivity.
Qed.

(** What a pass writes leaves no choice: a frame of the right length that
    holds those cells is the pass. *)
Lemma pass_writes_unique branchCount half temp frame :
  0 < half ->
  length temp = branchCount * (2 * half) -> length frame = length temp ->
  pass_writes branchCount half temp frame -> frame = pass half temp.
Proof.
  intros Hh Ht Hf Hw. apply list_eq. intros i.
  destruct (decide (i < length temp)) as [Hi|Hi].
  - rewrite pass_lookup by exact Hi.
    pose proof (Nat.div_mod_eq i (2 * half)) as Ei.
    pose proof (Nat.mod_upper_bound i (2 * half) ltac:(lia)) as Hr.
    set (b := i / (2 * half)) in *. set (r := i mod (2 * half)) in *.
    assert (Hb : b < branchCount) by nia.
    destruct (decide (r < half)) as [Hlo|Hhi].
    + destruct (Hw b r Hb Hlo) as (x & y & Hx & Hy & Hxy & _).
      replace i with (b * (2 * half) + r) by lia.
      rewrite Hxy, pass_at_lo by exact Hlo.
      rewrite (nth_lookup_Some _ _ 0%Z _ Hx), (nth_lookup_Some _ _ 0%Z _ Hy).
      reflexivity.
    + destruct (Hw b (r - half) Hb ltac:(lia)) as (x & y & _ & Hy & _ & Hyy).
      replace i with (b * (2 * half) + half + (r - half)) by lia.
      replace (b * (2 * half) + (r - half) + half)
        with (b * (2 * half) + half + (r - half)) in Hyy by lia.
      rewrite Hyy, pass_at_hi by lia.
      rewrite (nth_lookup_Some _ _ 0%Z _ Hy). reflexivity.
  - rewrite !lookup_ge_None_2; [reflexivity | rewrite pass_length; lia | lia].
Qed.

Lemma scalar_passes_run stage frame temp branchCount :
  length frame = length temp ->
  length temp = branchCount * 2 ^ stage ->
  scalar_passes stage branchCount (2 ^ stage / 2) (frame, temp)
    (match stage with
     | O => (frame, temp)
     | S _ => (passes stage (2 ^ stage / 2) temp,
               passes stage (2 ^ stage / 2) temp)
     end).
Proof.
  revert frame temp branchCount.
  induction stage as [|stage IH]; intros frame temp bc Hf Ht.
  - constructor.
  - rewrite pow2_half. apply scalar_passes_step with (pass (2 ^ stage) temp).
    + rewrite pass_length. congruence.
    + apply pass_writes_pass. rewrite Ht, Nat.pow_succ_r'. lia.
    + cbn [passes]. rewrite shiftr1.
      specialize (IH (pass (2 ^ stage) temp) (pass (2 ^ stage) temp) (2 * bc)).
      destruct stage; apply IH; try reflexivity;
        rewrite pass_length, Ht, Nat.pow_succ_r'; lia.
Qed.

(** The relation has one outcome only. *)
Lemma scalar_passes_unique stage frame temp branchCount out :
  length frame = length temp ->
  length temp = branchCount * 2 ^ stage ->
  scalar_passes stage branchCount (2 ^ stage / 2) (frame, temp) out ->
  out = match stage with
        | O => (frame, temp)
        | S _ => (passes stage (2 ^ stage / 2) temp,
                  passes stage (2 ^ stage / 2) temp)
        end.
Proof.
  revert frame temp branchCount.
  induction stage as [|stage IH]; intros frame temp bc Hf Ht H.
  - inversion H. reflexivity.
  - rewrite pow2_half in *. inversion H as [|? ? ? ? ? frame' ? Hl Hw Hrest]; subst.
    assert (frame' = pass (2 ^ stage) temp) as ->.
    { apply (pass_writes_unique bc); [apply pow2_pos | | congruence | exact Hw].
      rewrite Ht, Nat.pow_succ_r'. lia. }
    cbn [passes]. rewrite shiftr1.
    apply IH in Hrest;
      [| reflexivity | rewrite pass_length, Ht, Nat.pow_succ_r'; lia].
    rewrite Hrest. destruct stage; reflexivity.
Qed.

(** C2: for a frame of N = 2^S cells the scalar encoder performs exactly S
    passes, the first with half = N/2 and branchCount = 1; a pass writes,
    for each branch of width 2*half and each local index j below half,
    frame[branchOffset + j] = temp[branchOffset + 2j] XOR
    temp[branchOffset + 2j + 1] and frame[branchOffset + j + half] =
    temp[branchOffset + 2j + 1], then the frame is copied to temp,
    branchCount is doubled and half is halved. *)
Theorem generic_performs_log2_passes
    (s : nat) (frame temp mask frozen info : list Z) :
  s < 32 -> valid_input (2 ^ s) frame temp mask frozen info ->
  exists t out,
    interleave_frozen_and_info_bits temp mask frozen info (2 ^ s) = Some t /\
    volk_8u_x3_encodepolar_8u_x2_generic frame temp mask frozen info (2 ^ s)
    = Some out /\
    scalar_passes s 1 (2 ^ s / 2) (frame, t) out.
Proof.
  intros Hs V.
  destruct (generic_encodes s frame temp mask frozen info Hs V)
    as (t & Hil & Hlen & _ & Hrun).
  exists t. eexists. split; [exact Hil|]. split; [exact Hrun|].
  apply scalar_passes_run; [destruct V; congruence | lia].
Qed.

Lemma generic_performs_log2_passes_witness :
  exists t out,
    interleave_frozen_and_info_bits [0; 0; 0; 0]%Z [1; 0; 0; 1]%Z [0; 0]%Z
      [1; 0]%Z (2 ^ 2) = Some t /\
    volk_8u_x3_encodepolar_8u_x2_generic [0; 0; 0; 0]%Z [0; 0; 0; 0]%Z
      [1; 0; 0; 1]%Z [0; 0]%Z [1; 0]%Z (2 ^ 2) = Some out /\
    scalar_passes 2 1 (2 ^ 2 / 2) ([0; 0; 0; 0]%Z, t) out.
Proof.
  apply (generic_performs_log2_passes 2); [lia | constructor; reflexivity].
Defined.

(** C9: for a frame of N >= 2 cells, N a power of two, the scalar encoder
    returns with [temp] holding the same N bytes as [frame]. *)
Theorem generic_temp_equals_frame
    (k : nat) (frame temp mask frozen info : list Z) :
  1 <= k < 32 -> valid_input (2 ^ k) frame temp mask frozen info ->
  exists frame' temp',
    volk_8u_x3_encodepolar_8u_x2_generic frame temp mask frozen info (2 ^ k)
    = Some (frame', temp') /\
    length frame' = 2 ^ k /\ temp' = frame'.
Proof.
  intros Hk V.
  destruct (generic_encodes k frame temp mask frozen info) as (t & _ & Hlen & _ & Hrun);
    [lia | exact V |].
  destruct k as [|k]; [lia|].
  eexists _, _. split; [exact Hrun|].
  split; [rewrite passes_length; exact Hlen | reflexivity].
Qed.

Lemma generic_temp_equals_frame_witness :
  exists frame' temp',
    volk_8u_x3_encodepolar_8u_x2_generic [5; 6]%Z [7; 8]%Z [0; 255]%Z [1]%Z
      [1]%Z (2 ^ 1) = Some (frame', temp') /\
    length frame' = 2 ^ 1 /\ temp' = frame'.
Proof.
  apply (generic_temp_equals_frame 1); [lia | constructor; reflexivity].
Defined.

(** C6: for frame_size 4, mask [1,0,0,1], frozen values [0,0] and
    information values [1,0], whatever the two buffers hold before the call,
    the interleaved working buffer is [0,1,0,0] and the scalar encoder
    leaves [1,0,1,0] in frame. *)
Theorem generic_scenario_frozen (f0 f1 f2 f3 t0 t1 t2 t3 : Z) :
  interleave_frozen_and_info_bits [t0; t1; t2; t3] [1; 0; 0; 1]%Z [0; 0]%Z
    [1; 0]%Z 4 = Some [0; 1; 0; 0]%Z /\
  exists temp',
    volk_8u_x3_encodepolar_8u_x2_generic [f0; f1; f2; f3] [t0; t1; t2; t3]
      [1; 0; 0; 1]%Z [0; 0]%Z [1; 0]%Z 4 = Some ([1; 0; 1; 0]%Z, temp').
Proof. split; [reflexivity | eexists; reflexivity]. Qed.

(** C5, at frame_size 1: the stage count is 0, so the encoder performs no
    pass, and it never writes [frame]; the interleaved value is left in
    [temp] and [frame] still holds what it held before the call (0 where the
    only information value is 1), whether the one position is an
    information or a frozen one. *)
Theorem generic_size_1_leaves_frame_unwritten :
  log2_of_power_of_2 1 = 0%Z /\
  volk_8u_x3_encodepolar_8u_x2_generic [0]%Z [0]%Z [0]%Z [] [1]%Z 1
  = Some ([0]%Z, [1]%Z) /\
  (forall f t v : Z,
     volk_8u_x3_encodepolar_8u_x2_generic [f] [t] [0]%Z [] [v] 1
     = Some ([f], [v]) /\
     volk_8u_x3_encodepolar_8u_x2_generic [f] [t] [255]%Z [v] [] 1
     = Some ([f], [v])).
Proof. repeat split; reflexivity. Qed.

(** ** Ranges of the cells *)

Lemma is_bit_byte x : is_bit x -> is_byte x.
Proof. intros [-> | ->]; unfold is_byte; lia. Qed.

Lemma is_bit_lxor x y : is_bit x -> is_bit y -> is_bit (Z.lxor x y).
Proof. intros [-> | ->] [-> | ->]; [left | right | right | left]; reflexivity. Qed.

Lemma is_byte_land x : is_byte x <-> Z.land x 255 = x.
Proof.
  change 255%Z with (Z.ones 8). rewrite Z.land_ones by lia.
  change (2 ^ 8)%Z with 256%Z. unfold is_byte. split.
  - intros H. apply Z.mod_small. exact H.
  - intros <-. apply Z.mod_pos_bound. lia.
Qed.

(** The exclusive or of two [unsigned char] is one: the store of
    [stage_bit] does not truncate. *)
Lemma is_byte_lxor x y : is_byte x -> is_byte y -> is_byte (Z.lxor x y).
Proof.
  rewrite !is_byte_land. intros Hx Hy.
  rewrite <- Hx, <- Hy at 2. lane_eq.
Qed.

Section cells_in.
Variable P : Z -> Prop.
Hypothesis P_0 : P 0%Z.
Hypothesis P_lxor : forall x y, P x -> P y -> P (Z.lxor x y).

Lemma nth_in (m : list Z) i : Forall P m -> P (nth i m 0%Z).
Proof.
  intros H. rewrite nth_lookup. destruct (m !! i) as [x|] eqn:E; simpl.
  - exact (proj1 (Forall_lookup P m) H i x E).
  - exact P_0.
Qed.

Lemma pass_in half (temp : list Z) : Forall P temp -> Forall P (pass half temp).
Proof.
  intros H. unfold pass. apply Forall_fmap, Forall_forall. intros i _.
  simpl. unfold pass_at. cbv zeta.
  destruct (_ <? _); [apply P_lxor|]; apply nth_in; exact H.
Qed.

Lemma passes_in n half (temp : list Z) :
  Forall P temp -> Forall P (passes n half temp).
Proof.
  revert half temp. induction n as [|n IH]; intros half temp H; simpl.
  - exact H.
  - apply IH, pass_in, H.
Qed.

Lemma interleaved_in n (t mask frozen info : list Z) :
  (forall i, i < n ->
     t !! i = interleaved_at mask frozen info i /\ is_Some (t !! i)) ->
  length t = n -> Forall P frozen -> Forall P info -> Forall P t.
Proof.
  intros Hat Hlen Hf Hi. apply Forall_lookup. intros i x Hx.
  destruct (Hat i) as [E _]; [apply lookup_lt_Some in Hx; lia|].
  rewrite Hx in E. unfold interleaved_at in E.
  destruct (mask !! i) as [m|]; [|discriminate]. simpl in E.
  destruct (decide (m = 0%Z)).
  - exact (proj1 (Forall_lookup P info) Hi _ x (eq_sym E)).
  - exact (proj1 (Forall_lookup P frozen) Hf _ x (eq_sym E)).
Qed.
End cells_in.

(** Frames of at least two cells: on valid inputs whose frozen and
    information values are all 0 or 1, with N >= 2 a power of two, the
    scalar encoder overwrites frame with N cells that are all 0 or 1. *)
Theorem generic_codeword_cells_are_bits
    (k : nat) (frame temp mask frozen info : list Z) :
  1 <= k < 32 -> valid_input (2 ^ k) frame temp mask frozen info ->
  Forall is_bit frozen -> Forall is_bit info ->
  exists frame' temp',
    volk_8u_x3_encodepolar_8u_x2_generic frame temp mask frozen info (2 ^ k)
    = Some (frame', temp') /\
    length frame' = 2 ^ k /\ Forall is_bit frame'.
Proof.
  intros Hk V Hf Hi.
  destruct (generic_encodes k frame temp mask frozen info) as (t & _ & Hlen & Hat & Hrun);
    [lia | exact V |].
  destruct k as [|k]; [lia|].
  eexists _, _. split; [exact Hrun|].
  split; [rewrite passes_length; exact Hlen|].
  apply passes_in; [left; reflexivity | apply is_bit_lxor |].
  eapply interleaved_in; eauto.
Qed.

Lemma generic_codeword_cells_are_bits_witness :
  exists frame' temp',
    volk_8u_x3_encodepolar_8u_x2_generic [7; 7; 7; 7]%Z [9; 9; 9; 9]%Z
      [255; 0; 0; 255]%Z [0; 1]%Z [1; 1]%Z (2 ^ 2) = Some (frame', temp') /\
    length frame' = 2 ^ 2 /\ Forall is_bit frame'.
Proof.
  apply (generic_codeword_cells_are_bits 2);
    [lia | constructor; reflexivity | |]; all_bits.
Defined.

(** C8, at frame_size 1: the inputs are valid and the only information value
    is a bit, but the encoder runs no pass and never writes frame, which
    keeps the 7 it held before the call, a cell that is neither 0 nor 1. *)
Lemma generic_codeword_not_bits_at_size_1 :
  valid_input (2 ^ 0) [7]%Z [0]%Z [0]%Z [] [1]%Z /\
  Forall is_bit [] /\ Forall is_bit [1]%Z /\
  exists frame' temp',
    volk_8u_x3_encodepolar_8u_x2_generic [7]%Z [0]%Z [0]%Z [] [1]%Z (2 ^ 0)
    = Some (frame', temp') /\
    ~ Forall is_bit frame'.
Proof.
  split; [constructor; reflexivity|].
  split; [all_bits|]. split; [all_bits|].
  eexists _, _. split; [reflexivity|].
  intros H. apply Forall_cons_1 in H as [[H | H] _]; discriminate H.
Qed.

(** ** Linearity *)

Lemma nth_zip_lxor (a b : list Z) i :
  length a = length b ->
  nth i (zip_with Z.lxor a b) 0%Z = Z.lxor (nth i a 0%Z) (nth i b 0%Z).
Proof.
  intros Hlen. rewrite !nth_lookup, lookup_zip_with.
  destruct (a !! i) as [x|] eqn:Ea; destruct (b !! i) as [y|] eqn:Eb;
    simpl; try reflexivity.
  - apply lookup_lt_Some in Ea. apply lookup_ge_None in Eb. lia.
  - apply lookup_lt_Some in Eb. apply lookup_ge_None in Ea. lia.
Qed.

Lemma lxor_swap a1 a2 c1 c2 :
  Z.lxor (Z.lxor a1 c1) (Z.lxor a2 c2) = Z.lxor (Z.lxor a1 a2) (Z.lxor c1 c2).
Proof. lane_eq. Qed.

Lemma pass_lxor half (a b : list Z) :
  length a = length b ->
  pass half (zip_with Z.lxor a b) = zip_with Z.lxor (pass half a) (pass half b).
Proof.
  intros Hlen. apply list_eq. intros i.
  assert (Hz : length (zip_with Z.lxor a b) = length a)
    by (rewrite length_zip_with; lia).
  rewrite lookup_zip_with.
  destruct (decide (i < length a)) as [Hi|Hi].
  - rewrite !pass_lookup by lia. simpl. f_equal.
    unfold pass_at. cbv zeta. rewrite !nth_zip_lxor by assumption.
    destruct (_ <? _); [apply lxor_swap | reflexivity].
  - rewrite (lookup_ge_None_2 (pass half (zip_with _ _ _)))
      by (rewrite pass_length; lia).
    rewrite (lookup_ge_None_2 (pass half a)) by (rewrite pass_length; lia).
    reflexivity.
Qed.

Lemma passes_lxor n half (a b : list Z) :
  length a = length b ->
  passes n half (zip_with Z.lxor a b)
  = zip_with Z.lxor (passes n half a) (passes n half b).
Proof.
  revert half a b. induction n as [|n IH]; intros half a b Hlen; simpl.
  - reflexivity.
  - rewrite pass_lxor by assumption. apply IH. rewrite !pass_length. exact Hlen.
Qed.

Lemma count_frozen_0_info mask :
  count_frozen mask = 0 -> count_info mask = length mask.
Proof. intros H. pose proof (count_frozen_info mask). lia. Qed.

(** Without frozen positions the interleaved buffer is the information
    vector. *)
Lemma interleaved_all_info n (t mask info : list Z) :
  length mask = n -> count_frozen mask = 0 -> length info = n -> length t = n ->
  (forall i, i < n -> t !! i = interleaved_at mask [] info i /\ is_Some (t !! i)) ->
  t = info.
Proof.
  intros Hm Hz Hi Ht Hat. apply list_eq. intros i.
  destruct (decide (i < n)) as [Hlt|Hge].
  - destruct (Hat i Hlt) as [-> _]. unfold interleaved_at.
    destruct (lookup_lt_is_Some_2 mask i) as [m Hmi]; [lia|].
    rewrite Hmi. simpl.
    assert (Hc : count_frozen (take i mask) = 0)
      by (pose proof (count_frozen_take_le mask i); lia).
    assert (Hc' : count_frozen (take (S i) mask) = 0)
      by (pose proof (count_frozen_take_le mask (S i)); lia).
    rewrite (count_frozen_take_S _ _ _ Hmi), Hc in Hc'.
    destruct (decide (m = 0%Z)); [|lia].
    rewrite count_frozen_0_info by exact Hc.
    rewrite length_take_le by lia. reflexivity.
  - rewrite !lookup_ge_None_2 by lia. reflexivity.
Qed.

(** Frames of at least two cells: with an all-zero mask (no frozen
    positions) and N >= 2 a power of two, the scalar encoding of the
    element-wise XOR of two information vectors of length N is the
    element-wise XOR of their encodings.  Each call has buffers of its own;
    the values need not even be bits. *)
Theorem generic_linear_over_xor (k : nat)
    (mask infoA infoB frameA tempA frameB tempB frameX tempX : list Z) :
  1 <= k < 32 ->
  Forall (fun m => m = 0%Z) mask ->
  valid_input (2 ^ k) frameA tempA mask [] infoA ->
  valid_input (2 ^ k) frameB tempB mask [] infoB ->
  valid_input (2 ^ k) frameX tempX mask [] (zip_with Z.lxor infoA infoB) ->
  exists codeA codeB codeX tA tB tX,
    volk_8u_x3_encodepolar_8u_x2_generic frameA tempA mask [] infoA (2 ^ k)
    = Some (codeA, tA) /\
    volk_8u_x3_encodepolar_8u_x2_generic frameB tempB mask [] infoB (2 ^ k)
    = Some (codeB, tB) /\
    volk_8u_x3_encodepolar_8u_x2_generic frameX tempX mask []
      (zip_with Z.lxor infoA infoB) (2 ^ k) = Some (codeX, tX) /\
    codeX = zip_with Z.lxor codeA codeB.
Proof.
  intros Hk _ VA VB VX.
  destruct (generic_encodes k _ _ _ _ _ ltac:(lia) VA) as (a & _ & La & Ha & Ra).
  destruct (generic_encodes k _ _ _ _ _ ltac:(lia) VB) as (b & _ & Lb & Hb & Rb).
  destruct (generic_encodes k _ _ _ _ _ ltac:(lia) VX) as (x & _ & Lx & Hx & Rx).
  assert (Ea : a = infoA).
  { destruct VA as [_ _ Hm Hf Hi]. simpl in Hf.
    apply (interleaved_all_info (2 ^ k) a mask infoA); auto; lia. }
  assert (Eb : b = infoB).
  { destruct VB as [_ _ Hm Hf Hi]. simpl in Hf.
    apply (interleaved_all_info (2 ^ k) b mask infoB); auto; lia. }
  assert (Ex : x = zip_with Z.lxor infoA infoB).
  { destruct VX as [_ _ Hm Hf Hi]. simpl in Hf.
    apply (interleaved_all_info (2 ^ k) x mask _); auto; lia. }
  subst a b x. destruct k as [|k]; [lia|].
  eexists _, _, _, _, _, _. split; [exact Ra|]. split; [exact Rb|].
  split; [exact Rx|]. apply passes_lxor. lia.
Qed.

Lemma generic_linear_over_xor_witness :
  exists codeA codeB codeX tA tB tX,
    volk_8u_x3_encodepolar_8u_x2_generic [0; 0]%Z [0; 0]%Z [0; 0]%Z []
      [1; 0]%Z (2 ^ 1) = Some (codeA, tA) /\
    volk_8u_x3_encodepolar_8u_x2_generic [1; 1]%Z [1; 1]%Z [0; 0]%Z []
      [1; 1]%Z (2 ^ 1) = Some (codeB, tB) /\
    volk_8u_x3_encodepolar_8u_x2_generic [2; 2]%Z [2; 2]%Z [0; 0]%Z []
      (zip_with Z.lxor [1; 0]%Z [1; 1]%Z) (2 ^ 1) = Some (codeX, tX) /\
    codeX = zip_with Z.lxor codeA codeB.
Proof.
  apply (generic_linear_over_xor 1);
    [lia | repeat constructor | constructor; reflexivity ..].
Defined.

(** C4, at frame_size 1: with the all-zero mask [0] and the information
    vectors [1] and [0], the encoder runs no pass and never writes frame, so
    each of the three encodings is the 1 that frame held before the call,
    and the encoding of the XOR is not the XOR of the encodings. *)
Lemma generic_not_linear_at_size_1 :
  Forall (fun m => m = 0%Z) [0]%Z /\
  valid_input (2 ^ 0) [1]%Z [0]%Z [0]%Z [] [1]%Z /\
  valid_input (2 ^ 0) [1]%Z [0]%Z [0]%Z [] [0]%Z /\
  valid_input (2 ^ 0) [1]%Z [0]%Z [0]%Z [] (zip_with Z.lxor [1]%Z [0]%Z) /\
  exists codeA codeB codeX tA tB tX,
    volk_8u_x3_encodepolar_8u_x2_generic [1]%Z [0]%Z [0]%Z [] [1]%Z (2 ^ 0)
    = Some (codeA, tA) /\
    volk_8u_x3_encodepolar_8u_x2_generic [1]%Z [0]%Z [0]%Z [] [0]%Z (2 ^ 0)
    = Some (codeB, tB) /\
    volk_8u_x3_encodepolar_8u_x2_generic [1]%Z [0]%Z [0]%Z []
      (zip_with Z.lxor [1]%Z [0]%Z) (2 ^ 0) = Some (codeX, tX) /\
    codeX <> zip_with Z.lxor codeA codeB.
Proof.
  split; [repeat constructor|].
  do 3 (split; [constructor; reflexivity|]).
  eexists _, _, _, _, _, _. do 3 (split; [reflexivity|]).
  discriminate.
Qed.

(** ** Registers *)

Lemma shuffle_stage4_lanes (a0 a1 a2 a3 a4 a5 a6 a7 a8 a9 a10 a11 a12 a13 a14 a15 : Z) :
  _mm_shuffle_epi8 [a0; a1; a2; a3; a4; a5; a6; a7; a8; a9; a10; a11; a12; a13; a14; a15]
    shuffle_stage4
  = [a0; a8; a4; a12; a2; a10; a6; a14; a1; a9; a5; a13; a3; a11; a7; a15].
Proof. reflexivity. Qed.

Lemma shuffle_separate_lanes (a0 a1 a2 a3 a4 a5 a6 a7 a8 a9 a10 a11 a12 a13 a14 a15 : Z) :
  _mm_shuffle_epi8 [a0; a1; a2; a3; a4; a5; a6; a7; a8; a9; a10; a11; a12; a13; a14; a15]
    shuffle_separate
  = [a0; a2; a4; a6; a8; a10; a12; a14; a1; a3; a5; a7; a9; a11; a13; a15].
Proof. reflexivity. Qed.

Lemma bytes_land (v : list Z) :
  Forall is_byte v -> map (fun y => Z.land y 255) v = v.
Proof.
  induction 1 as [|x v Hx _ IH]; simpl; [reflexivity|].
  rewrite IH, (proj1 (is_byte_land x) Hx). reflexivity.
Qed.

(** The fused network of the fine tier is four passes on its 16 cells. *)
Lemma fine_regs_masked
    (y0 y1 y2 y3 y4 y5 y6 y7 y8 y9 y10 y11 y12 y13 y14 y15 : Z) :
  fine_regs (map (fun y => Z.land y 255)
               [y0; y1; y2; y3; y4; y5; y6; y7; y8; y9; y10; y11; y12; y13; y14; y15])
  = passes 4 8 (map (fun y => Z.land y 255)
               [y0; y1; y2; y3; y4; y5; y6; y7; y8; y9; y10; y11; y12; y13; y14; y15]).
Proof.
  unfold fine_regs. cbn [map]. rewrite shuffle_stage4_lanes.
  cbv -[Z.land Z.lxor]. lanes.
Qed.

Lemma fine_regs_passes (v : vec) :
  length v = 16 -> Forall is_byte v -> fine_regs v = passes 4 8 v.
Proof.
  intros Hlen Hb. rewrite <- (bytes_land v Hb). clear Hb.
  lanes16 v Hlen. apply fine_regs_masked.
Qed.

(** The registers of a coarse chunk are the two halves of one pass on its
    32 cells. *)
Lemma coarse_regs_masked
    (y0 y1 y2 y3 y4 y5 y6 y7 y8 y9 y10 y11 y12 y13 y14 y15
     z0 z1 z2 z3 z4 z5 z6 z7 z8 z9 z10 z11 z12 z13 z14 z15 : Z) :
  let r0 := map (fun y => Z.land y 255)
              [y0; y1; y2; y3; y4; y5; y6; y7; y8; y9; y10; y11; y12; y13; y14; y15] in
  let r1 := map (fun y => Z.land y 255)
              [z0; z1; z2; z3; z4; z5; z6; z7; z8; z9; z10; z11; z12; z13; z14; z15] in
  coarse_regs r0 r1
  = (take 16 (pass 16 (r0 ++ r1)), drop 16 (pass 16 (r0 ++ r1))).
Proof.
  cbv zeta. unfold coarse_regs. cbn [map].
  match goal with |- _ = ?r => set (rhs := r) end.
  cbv -[Z.land Z.lxor _mm_shuffle_epi8 shuffle_separate rhs].
  rewrite !shuffle_separate_lanes. subst rhs.
  cbv -[Z.land Z.lxor]. apply f_equal2; lanes.
Qed.

Lemma coarse_regs_pass (r0 r1 : vec) :
  length r0 = 16 -> length r1 = 16 -> Forall is_byte r0 -> Forall is_byte r1 ->
  coarse_regs r0 r1
  = (take 16 (pass 16 (r0 ++ r1)), drop 16 (pass 16 (r0 ++ r1))).
Proof.
  intros L0 L1 B0 B1.
  rewrite <- (bytes_land r0 B0), <- (bytes_land r1 B1). clear B0 B1.
  lanes16 r0 L0. lanes16 r1 L1. apply coarse_regs_masked.
Qed.

(** ** Loads and stores *)

Lemma store_lookup (m v : list Z) n p i :
  length v = n -> p + n <= length m ->
  (take p m ++ v ++ drop (p + n) m) !! i
  = if decide (p <= i < p + n) then v !! (i - p) else m !! i.
Proof.
  intros <- H. destruct (decide (i < p)) as [Hlo|Hhi].
  - rewrite lookup_app_l by (rewrite length_take; lia).
    rewrite lookup_take_lt by lia. rewrite decide_False by lia. reflexivity.
  - rewrite lookup_app_r by (rewrite length_take; lia).
    rewrite length_take_le by lia.
    destruct (decide (i < p + length v)) as [Hin|Hout].
    + rewrite lookup_app_l by lia. rewrite decide_True by lia. reflexivity.
    + rewrite lookup_app_r by lia. rewrite lookup_drop.
      rewrite decide_False by lia. f_equal. lia.
Qed.

Lemma store_length (m v : list Z) n p :
  length v = n -> p + n <= length m ->
  length (take p m ++ v ++ drop (p + n) m) = length m.
Proof.
  intros <- H. rewrite !length_app, length_take, length_drop. lia.
Qed.

Lemma nth_block (m : list Z) p n i :
  i < n -> nth i (take n (drop p m)) 0%Z = nth (p + i) m 0%Z.
Proof.
  intros H. rewrite !nth_lookup, lookup_take_lt, lookup_drop by lia. reflexivity.
Qed.

Lemma block_length (m : list Z) p n :
  p + n <= length m -> length (take n (drop p m)) = n.
Proof. intros H. rewrite length_take, length_drop. lia. Qed.

Lemma block_bytes (m : list Z) p n :
  Forall is_byte m -> Forall is_byte (take n (drop p m)).
Proof. intros H. apply Forall_take, Forall_drop, H. Qed.

Lemma block_app (m : list Z) p a b :
  take a (drop p m) ++ take b (drop (p + a) m) = take (a + b) (drop p m).
Proof.
  rewrite <- take_take_drop, drop_drop. reflexivity.
Qed.

(** ** Blocks: a pass at a width that divides the block size works on each
    block by itself *)

Lemma pass_block half B c (temp : list Z) :
  0 < half -> B mod (2 * half) = 0 -> B * c + B <= length temp ->
  pass half (take B (drop (B * c) temp)) = take B (drop (B * c) (pass half temp)).
Proof.
  intros Hh Hdiv Hlen. apply list_eq. intros r.
  pose proof (block_length temp (B * c) B Hlen) as Lb.
  destruct (decide (r < B)) as [Hr|Hr].
  - rewrite pass_lookup by lia.
    rewrite lookup_take_lt, lookup_drop, pass_lookup by lia. f_equal.
    set (w := 2 * half) in *.
    pose proof (Nat.div_mod_eq B w) as EB. rewrite Hdiv, Nat.add_0_r in EB.
    pose proof (Nat.div_mod_eq r w) as Er.
    pose proof (Nat.mod_upper_bound r w ltac:(lia)) as Hr0.
    set (m := B / w) in *. set (a := r / w) in *. set (r0 := r mod w) in *.
    assert (Ha : a < m) by nia.
    assert (Hin : a * w + w <= B) by nia.
    replace (B * c + r) with ((m * c + a) * w + r0) by nia.
    replace r with (a * w + r0) at 1 by lia.
    destruct (decide (r0 < half)) as [Hlo|Hhi].
    + unfold w. rewrite !pass_at_lo by assumption. fold w.
      rewrite !nth_block by lia. f_equal; f_equal; nia.
    + replace r0 with (half + (r0 - half)) by lia. rewrite !Nat.add_assoc.
      unfold w. rewrite !pass_at_hi by lia. fold w.
      rewrite !nth_block by lia. f_equal; nia.
  - rewrite lookup_ge_None_2 by (rewrite pass_length; lia).
    rewrite lookup_take_ge by lia. reflexivity.
Qed.

Lemma passes4_block c (temp : list Z) :
  16 * c + 16 <= length temp ->
  passes 4 8 (take 16 (drop (16 * c) temp))
  = take 16 (drop (16 * c) (passes 4 8 temp)).
Proof.
  intros Hlen. cbn [passes].
  change (Nat.shiftr 8 1) with 4. change (Nat.shiftr 4 1) with 2.
  change (Nat.shiftr 2 1) with 1.
  rewrite (pass_block 8), (pass_block 4), (pass_block 2), (pass_block 1);
    rewrite ?pass_length; try reflexivity; lia.
Qed.

Lemma passes_split n (temp : list Z) :
  passes (n + 4) (2 ^ (n + 4) / 2) temp
  = passes 4 8 (passes n (2 ^ (n + 4) / 2) temp).
Proof.
  revert temp. induction n as [|n IH]; intros temp.
  - reflexivity.
  - change (S n + 4) with (S (n + 4)). cbn [passes].
    rewrite pow2_half, shiftr1. apply IH.
Qed.

Lemma pow2_16 n : 2 ^ (n + 4) = 2 ^ n * 16.
Proof. rewrite Nat.pow_add_r. reflexivity. Qed.

(** ** The SSSE3 encoders *)

Lemma pass16_lo (blk : list Z) j :
  j < 16 ->
  pass_at 16 blk j = Z.lxor (nth (2 * j) blk 0%Z) (nth (2 * j + 1) blk 0%Z).
Proof. intros H. exact (pass_at_lo 16 blk 0 j H). Qed.

Lemma pass16_hi (blk : list Z) j :
  j < 16 -> pass_at 16 blk (16 + j) = nth (2 * j + 1) blk 0%Z.
Proof. intros H. exact (pass_at_hi 16 blk 0 j H). Qed.

(** The two bodies, with their register arithmetic set apart. *)
Lemma coarse_chunk_regs load store temp frame_half s :
  coarse_chunk load store temp frame_half s
  = (r_temp0 ← load temp (temp_ptr s);
     r_temp1 ← load temp (temp_ptr s + 16);
     f1 ← store (st_frame s) (frame_ptr s) (coarse_regs r_temp0 r_temp1).1;
     f2 ← store f1 (frame_ptr s + frame_half) (coarse_regs r_temp0 r_temp1).2;
     Some (StageState f2 (frame_ptr s + 16) (temp_ptr s + 16 + 16))).
Proof. reflexivity. Qed.

Lemma fine_chunk_regs load store temp s :
  fine_chunk load store temp s
  = (r_temp0 ← load temp (fi_temp_ptr s);
     f ← store (fi_frame s) (fi_frame_ptr s) (fine_regs (fi_r_temp0 s));
     Some (FineState f (fi_frame_ptr s + 16) (fi_temp_ptr s + 16) r_temp0)).
Proof. reflexivity. Qed.

(** A block that lies in the first part of a buffer. *)
Lemma block_app_l (m rest : list Z) p n :
  p + n <= length m -> take n (drop p (m ++ rest)) = take n (drop p m).
Proof.
  intros H. rewrite drop_app_le by lia.
  apply take_app_le. rewrite length_drop. lia.
Qed.

Lemma memcpy_app (dst rest src : list Z) :
  length src = length dst ->
  memcpy (dst ++ rest) src (length dst) = Some (src ++ rest).
Proof.
  intros H. unfold memcpy. rewrite decide_True by (rewrite length_app; lia).
  rewrite <- H at 1. rewrite firstn_all.
  rewrite drop_app_length. reflexivity.
Qed.

(** The buffer the interleaving leaves in a [temp] of [n] bytes or more:
    [n] interleaved cells, and the cells after them as they were. *)
Lemma interleave_prefix n temp mask frozen info :
  n <= length temp -> length mask = n ->
  count_frozen mask = length frozen -> n - count_frozen mask = length info ->
  exists t,
    interleave_frozen_and_info_bits temp mask frozen info n
    = Some (t ++ drop n temp) /\
    length t = n /\
    (forall k, k < n ->
       t !! k = interleaved_at mask frozen info k /\ is_Some (t !! k)).
Proof.
  intros Ht Hm Hf Hi. pose proof (count_frozen_info mask) as Hc.
  destruct (interleave_run_inv temp mask frozen info n)
    as (t & Hrun & Hlen & Hlo & Hhi); try lia.
  exists (take n t). unfold interleave_frozen_and_info_bits. rewrite Hrun.
  simpl. split; [|split].
  - f_equal. rewrite <- (take_drop n t) at 1. f_equal.
    apply list_eq. intros k. rewrite !lookup_drop. apply Hhi. lia.
  - rewrite length_take. lia.
  - intros k Hk. rewrite lookup_take_lt by lia. apply Hlo. exact Hk.
Qed.

(** Two buffers of [n] interleaved cells are the same buffer. *)
Lemma interleaved_unique n (t t' mask frozen info : list Z) :
  length t = n -> length t' = n ->
  (forall k, k < n ->
     t !! k = interleaved_at mask frozen info k /\ is_Some (t !! k)) ->
  (forall k, k < n ->
     t' !! k = interleaved_at mask frozen info k /\ is_Some (t' !! k)) ->
  t = t'.
Proof.
  intros L L' H H'. apply list_eq. intros k.
  destruct (decide (k < n)) as [Hk|Hk].
  - destruct (H k Hk) as [-> _]. destruct (H' k Hk) as [-> _]. reflexivity.
  - rewrite !lookup_ge_None_2 by lia. reflexivity.
Qed.

Section ssse3_correct.
Variable load : list Z -> nat -> option vec.
Variable store : list Z -> nat -> vec -> option (list Z).

(** All that is asked of the two primitives: an access at a multiple of 16
    that stays inside the buffer does what the unaligned one does. *)
Hypothesis load_ok : forall m p,
  p mod 16 = 0 -> p + 16 <= length m -> load m p = Some (take 16 (drop p m)).
Hypothesis store_ok : forall m p v,
  p mod 16 = 0 -> p + 16 <= length m ->
  store m p v = Some (take p m ++ v ++ drop (p + 16) m).

(** A load from the first part of a buffer does not see what follows. *)
Lemma load_app temp rest p :
  p mod 16 = 0 -> p + 16 <= length temp ->
  load (temp ++ rest) p = Some (take 16 (drop p temp)).
Proof.
  intros Hp Hl. rewrite load_ok by (rewrite ?length_app; lia).
  rewrite block_app_l by lia. reflexivity.
Qed.

Lemma coarse_chunk_ok temp rest half f fp tp :
  Forall is_byte temp -> 16 <= half -> half mod 16 = 0 ->
  fp + half + 16 <= length f -> tp + 2 * 16 <= length temp ->
  fp mod 16 = 0 -> tp mod 16 = 0 ->
  exists f', coarse_chunk load store (temp ++ rest) half (StageState f fp tp)
             = Some (StageState f' (fp + 16) (tp + 2 * 16)) /\
             bits_done temp half fp tp 16 f f'.
Proof.
  intros Hb Hh Hh16 Hf Ht Hfp Htp.
  rewrite coarse_chunk_regs. cbn [st_frame frame_ptr temp_ptr].
  rewrite (load_app temp rest tp), bind_some by mlia.
  rewrite (load_app temp rest (tp + 16)), bind_some by mlia.
  rewrite coarse_regs_pass;
    [| apply block_length; lia | apply block_length; lia
     | apply block_bytes, Hb | apply block_bytes, Hb].
  cbn [fst snd]. rewrite block_app. change (16 + 16) with 32.
  set (blk := take 32 (drop tp temp)).
  assert (Lblk : length blk = 32) by (apply block_length; lia).
  assert (Lp : length (pass 16 blk) = 32) by (rewrite pass_length; exact Lblk).
  set (lo := take 16 (pass 16 blk)). set (hi := drop 16 (pass 16 blk)).
  assert (Llo : length lo = 16) by (unfold lo; rewrite length_take; lia).
  assert (Lhi : length hi = 16) by (unfold hi; rewrite length_drop; lia).
  rewrite store_ok, bind_some by mlia.
  pose proof (store_length f lo 16 fp Llo ltac:(lia)) as L1.
  set (f1 := take fp f ++ lo ++ drop (fp + 16) f) in *.
  rewrite store_ok, bind_some by mlia.
  pose proof (store_length f1 hi 16 (fp + half) Lhi ltac:(lia)) as L2.
  exists (take (fp + half) f1 ++ hi ++ drop (fp + half + 16) f1).
  split; [do 2 f_equal; lia|]. split; [congruence|]. split.
  - intros j Hj. split.
    + rewrite (store_lookup f1 hi 16) by lia. rewrite decide_False by lia.
      unfold f1. rewrite (store_lookup f lo 16) by lia.
      rewrite decide_True by lia. replace (fp + j - fp) with j by lia.
      unfold lo. rewrite lookup_take_lt, pass_lookup by lia.
      rewrite pass16_lo by lia. unfold blk.
      rewrite !nth_block by lia. rewrite Nat.add_assoc. reflexivity.
    + rewrite (store_lookup f1 hi 16) by lia. rewrite decide_True by lia.
      replace (fp + half + j - (fp + half)) with j by lia.
      unfold hi. rewrite lookup_drop, pass_lookup by lia.
      rewrite pass16_hi by lia. unfold blk.
      rewrite !nth_block by lia. rewrite Nat.add_assoc. reflexivity.
  - intros i Hi. rewrite (store_lookup f1 hi 16) by lia.
    rewrite decide_False by lia. unfold f1.
    rewrite (store_lookup f lo 16) by lia.
    rewrite decide_False by lia. reflexivity.
Qed.

(** One pass of the coarse tier on the first cells of [temp]: the cells
    [rest] that follow them are not read. *)
Lemma coarse_stage_pass frame temp rest num_branches frame_half :
  Forall is_byte temp -> 16 <= frame_half -> frame_half mod 16 = 0 ->
  length frame = length temp ->
  length temp = num_branches * (2 * frame_half) ->
  coarse_stage load store frame (temp ++ rest) num_branches frame_half
  = Some (pass frame_half temp).
Proof.
  intros Hb Hh Hh16 Hf Ht.
  destruct (stage_is_pass temp frame_half 16 ((frame_half + 15) / 16)
              (coarse_chunk load store (temp ++ rest) frame_half))
    with (nb := num_branches) (f := frame) as (s & Hrun & Hs);
    [lia | | | assumption | assumption |].
  - mlia.
  - intros f fp tp. apply coarse_chunk_ok; assumption.
  - unfold coarse_stage.
    change (coarse_branch load store (temp ++ rest) frame_half)
      with (chunked_branch ((frame_half + 15) / 16) frame_half
              (coarse_chunk load store (temp ++ rest) frame_half)).
    rewrite Hrun, bind_some, Hs. reflexivity.
Qed.

(** The [while(stage > 4)] loop of a frame of [2^(n+4)] cells: [n]
    passes, and the fine tier starts with 8 as [frame_half]. *)
Lemma coarse_loop_passes n frame temp rest num_branches :
  Forall is_byte temp ->
  length frame = length temp ->
  length temp = num_branches * 2 ^ (n + 4) ->
  coarse_loop load store (n + 4) frame (temp ++ rest) (length temp) num_branches
    (2 ^ (n + 4) / 2)
  = Some (CoarseResult
            (match n with
             | O => frame
             | S _ => passes n (2 ^ (n + 4) / 2) temp
             end)
            (passes n (2 ^ (n + 4) / 2) temp ++ rest)
            4 (num_branches * 2 ^ n) 8).
Proof.
  revert frame temp num_branches.
  induction n as [|n IH]; intros frame temp nb Hb Hf Ht.
  - change (0 + 4) with 4. cbn [coarse_loop]. rewrite decide_False by lia.
    cbn [passes]. change (2 ^ 0) with 1. rewrite Nat.mul_1_r. reflexivity.
  - change (S n + 4) with (S (n + 4)) in *. cbn [coarse_loop].
    rewrite decide_True by lia. rewrite pow2_half.
    rewrite coarse_stage_pass;
      [| assumption
       | rewrite pow2_16; pose proof (pow2_pos n); lia
       | rewrite pow2_16; apply Nat.Div0.mod_mul
       | assumption
       | rewrite Ht, Nat.pow_succ_r'; lia].
    rewrite bind_some.
    rewrite memcpy_app by apply pass_length.
    rewrite bind_some, shiftl1, shiftr1.
    rewrite <- (pass_length (2 ^ (n + 4)) temp) at 1.
    rewrite IH;
      [| apply pass_in;
           [unfold is_byte; lia | apply is_byte_lxor | assumption]
       | reflexivity
       | rewrite pass_length, Ht, Nat.pow_succ_r'; lia].
    cbn [passes]. rewrite shiftr1. f_equal. f_equal.
    + destruct n; reflexivity.
    + rewrite Nat.pow_succ_r'. lia.
Qed.

(** Everything up to the last loop, on a [temp] in which the interleaving
    leaves the [2^(n+4)] cells of [t], followed by [rest]. *)
Lemma ssse3_coarse_passes n frame temp mask frozen info t rest :
  n + 4 < 32 -> length frame = 2 ^ (n + 4) -> length t = 2 ^ (n + 4) ->
  Forall is_byte t ->
  interleave_frozen_and_info_bits temp mask frozen info (2 ^ (n + 4))
  = Some (t ++ rest) ->
  ssse3_coarse load store frame temp mask frozen info (2 ^ (n + 4))
  = Some (CoarseResult
            (match n with
             | O => frame
             | S _ => passes n (2 ^ (n + 4) / 2) t
             end)
            (passes n (2 ^ (n + 4) / 2) t ++ rest)
            4 (2 ^ n) 8).
Proof.
  intros Hn Hf Hlen Hb Hil.
  unfold ssse3_coarse. cbv zeta.
  rewrite Hil, bind_some, stage_of_pow2, shiftr1 by assumption.
  rewrite <- Hlen at 1.
  rewrite coarse_loop_passes; [| assumption | congruence | lia].
  rewrite Nat.mul_1_l. reflexivity.
Qed.

(** One iteration of the last loop, on the chunk [c] of the cells [T]
    that [temp] starts with, when its load yields [r]. *)
Lemma fine_chunk_ok temp T f c r :
  Forall is_byte T -> length f = length T -> 16 * c + 16 <= length T ->
  load temp (16 * c + 16) = Some r ->
  exists f',
    fine_chunk load store temp
      (FineState f (16 * c) (16 * c + 16) (take 16 (drop (16 * c) T)))
    = Some (FineState f' (16 * c + 16) (16 * c + 16 + 16) r) /\
    length f' = length f /\
    (forall i, 16 * c <= i < 16 * c + 16 -> f' !! i = passes 4 8 T !! i) /\
    (forall i, i < 16 * c \/ 16 * c + 16 <= i -> f' !! i = f !! i).
Proof.
  intros Hb Hf Hc Hr.
  rewrite fine_chunk_regs. cbn [fi_frame fi_frame_ptr fi_temp_ptr fi_r_temp0].
  rewrite Hr, bind_some.
  rewrite fine_regs_passes;
    [| apply block_length; lia | apply block_bytes, Hb].
  rewrite passes4_block by lia.
  set (v := take 16 (drop (16 * c) (passes 4 8 T))).
  assert (Lv : length v = 16).
  { unfold v. apply block_length. rewrite passes_length. lia. }
  rewrite store_ok, bind_some by mlia.
  eexists. split; [reflexivity|].
  split; [apply (store_length f v 16); [exact Lv | lia]|]. split.
  - intros i Hi. rewrite (store_lookup f v 16) by lia.
    rewrite decide_True by lia.
    unfold v. rewrite lookup_take_lt, lookup_drop by lia. f_equal. lia.
  - intros i Hi. rewrite (store_lookup f v 16) by lia.
    rewrite decide_False by lia. reflexivity.
Qed.

(** The same iteration when its load yields nothing. *)
Lemma fine_chunk_fault temp s :
  load temp (fi_temp_ptr s) = None -> fine_chunk load store temp s = None.
Proof. intros H. rewrite fine_chunk_regs, H. reflexivity. Qed.

Lemma fine_init_ok T rest f :
  16 <= length T ->
  fine_init load f (T ++ rest)
  = Some (FineState f (16 * 0) (16 * 0 + 16) (take 16 (drop (16 * 0) T))).
Proof.
  intros H. unfold fine_init. cbv zeta.
  rewrite (load_app T rest 0) by (try reflexivity; lia). reflexivity.
Qed.

(** The state of the last loop after [c] chunks, all of them before the
    last chunk of [T]: every load so far was inside [T]. *)
Lemma fine_loop_inv T rest f c :
  Forall is_byte T -> length f = length T -> 16 * c + 16 <= length T ->
  exists f',
    for_loop c (fine_chunk load store (T ++ rest))
      (FineState f (16 * 0) (16 * 0 + 16) (take 16 (drop (16 * 0) T)))
    = Some (FineState f' (16 * c) (16 * c + 16) (take 16 (drop (16 * c) T))) /\
    length f' = length f /\
    (forall i, i < 16 * c -> f' !! i = passes 4 8 T !! i) /\
    (forall i, 16 * c <= i -> f' !! i = f !! i).
Proof.
  intros Hb Hf Hc. induction c as [|c IH].
  - exists f. split; [reflexivity|]. split; [reflexivity|].
    split; [intros; lia | reflexivity].
  - destruct IH as (f1 & Hrun & L1 & W1 & U1); [lia|].
    rewrite for_loop_snoc, Hrun, bind_some.
    destruct (fine_chunk_ok (T ++ rest) T f1 c (take 16 (drop (16 * c + 16) T)))
      as (f2 & Hstep & L2 & W2 & U2); [assumption | congruence | lia | |].
    { apply load_app; [mlia | lia]. }
    rewrite Hstep. replace (16 * S c) with (16 * c + 16) by lia.
    exists f2. split; [reflexivity|]. split; [congruence|]. split.
    + intros i Hi. destruct (decide (16 * c <= i)) as [Hin|Hout].
      * apply W2. lia.
      * rewrite U2 by lia. apply W1. lia.
    + intros i Hi. rewrite U2 by lia. apply U1. lia.
Qed.

(** The frame after [c] chunks is known cell by cell, so it is one list,
    the same for every pair of primitives. *)
Lemma fine_loop_state T rest f c :
  Forall is_byte T -> length f = length T -> 16 * c + 16 <= length T ->
  for_loop c (fine_chunk load store (T ++ rest))
    (FineState f (16 * 0) (16 * 0 + 16) (take 16 (drop (16 * 0) T)))
  = Some (FineState (take (16 * c) (passes 4 8 T) ++ drop (16 * c) f)
            (16 * c) (16 * c + 16) (take 16 (drop (16 * c) T))).
Proof.
  intros Hb Hf Hc.
  destruct (fine_loop_inv T rest f c Hb Hf Hc) as (f' & Hrun & L & W & U).
  rewrite Hrun. do 2 f_equal. apply list_eq. intros i.
  assert (Lt : length (take (16 * c) (passes 4 8 T)) = 16 * c).
  { rewrite length_take, passes_length. lia. }
  destruct (decide (i < 16 * c)) as [Hi|Hi].
  - rewrite lookup_app_l by lia. rewrite lookup_take_lt by lia. apply W, Hi.
  - rewrite lookup_app_r by lia. rewrite Lt, lookup_drop.
    rewrite U by lia. f_equal. lia.
Qed.

(** The whole last loop on the [nb] chunks of [T]: its last iteration
    starts in the state [s] below, with [temp_ptr] where [T] ends.  When
    the load of that iteration yields nothing the iteration faults; when
    it yields a register the iteration leaves the four passes of [T] in the
    frame. *)
Lemma fine_loop_last T rest F nb :
  Forall is_byte T -> length F = length T -> length T = 16 * nb -> 1 <= nb ->
  let s := FineState
             (take (16 * (nb - 1)) (passes 4 8 T) ++ drop (16 * (nb - 1)) F)
             (16 * (nb - 1)) (16 * (nb - 1) + 16)
             (take 16 (drop (16 * (nb - 1)) T)) in
  (s0 ← fine_init load F (T ++ rest);
   for_loop (nb - 1) (fine_chunk load store (T ++ rest)) s0) = Some s /\
  (load (T ++ rest) (16 * nb) = None ->
   fine_chunk load store (T ++ rest) s = None) /\
  (forall r, load (T ++ rest) (16 * nb) = Some r ->
   fine_chunk load store (T ++ rest) s
   = Some (FineState (passes 4 8 T) (16 * nb) (16 * nb + 16) r)).
Proof.
  intros Hb LF LT Hnb s.
  assert (E : 16 * (nb - 1) + 16 = 16 * nb) by lia.
  assert (Lt : length (take (16 * (nb - 1)) (passes 4 8 T)) = 16 * (nb - 1)).
  { rewrite length_take, passes_length. lia. }
  split; [|split].
  - rewrite fine_init_ok, bind_some by lia.
    apply fine_loop_state; [assumption | assumption | lia].
  - intros Hnone. apply fine_chunk_fault. unfold s. cbn [fi_temp_ptr].
    rewrite E. exact Hnone.
  - intros r Hr. unfold s.
    destruct (fine_chunk_ok (T ++ rest) T
                (take (16 * (nb - 1)) (passes 4 8 T) ++ drop (16 * (nb - 1)) F)
                (nb - 1) r)
      as (f2 & Hstep & L2 & W2 & U2); [assumption | | lia | |].
    { rewrite length_app, Lt, length_drop. lia. }
    { rewrite E. exact Hr. }
    rewrite Hstep, E. do 2 f_equal.
    apply list_eq. intros i. destruct (decide (i < 16 * nb)) as [Hi|Hi].
    + destruct (decide (16 * (nb - 1) <= i)) as [Hin|Hout].
      * apply W2. lia.
      * rewrite U2 by lia. rewrite lookup_app_l by lia.
        apply lookup_take_lt. lia.
    + rewrite !lookup_ge_None_2; [reflexivity | rewrite passes_length; lia |].
      rewrite L2, length_app, Lt, length_drop. lia.
Qed.

(** Both tiers together.  The encoder returns the codeword when the load
    at the end of the [2^(n+4)] cells yields a register, and faults when it
    yields nothing. *)
Lemma ssse3_encodes n frame temp mask frozen info t rest r :
  n + 4 < 32 -> length frame = 2 ^ (n + 4) -> length t = 2 ^ (n + 4) ->
  Forall is_byte t ->
  interleave_frozen_and_info_bits temp mask frozen info (2 ^ (n + 4))
  = Some (t ++ rest) ->
  load (passes n (2 ^ (n + 4) / 2) t ++ rest) (2 ^ (n + 4)) = Some r ->
  encodepolar_ssse3 load store frame temp mask frozen info (2 ^ (n + 4))
  = Some (passes (n + 4) (2 ^ (n + 4) / 2) t,
          passes n (2 ^ (n + 4) / 2) t ++ rest).
Proof.
  intros Hn Hf Hlen Hb Hil Hr.
  unfold encodepolar_ssse3.
  rewrite (ssse3_coarse_passes n frame temp mask frozen info t rest)
    by assumption.
  rewrite bind_some. cbn [co_frame co_temp co_num_branches].
  set (T := passes n (2 ^ (n + 4) / 2) t) in *.
  assert (LT : length T = 16 * 2 ^ n).
  { unfold T. rewrite passes_length, Hlen, pow2_16. lia. }
  assert (BT : Forall is_byte T).
  { apply passes_in; [unfold is_byte; lia | apply is_byte_lxor | exact Hb]. }
  set (F := match n with O => frame | S _ => T end).
  assert (LF : length F = length T).
  { unfold F. destruct n; [|reflexivity]. rewrite Hf, LT, pow2_16. lia. }
  pose proof (pow2_pos n) as Hpos.
  destruct (fine_loop_last T rest F (2 ^ n) BT LF LT Hpos)
    as (Hrun & _ & Hlast).
  rewrite pow2_16, Nat.mul_comm in Hr. specialize (Hlast r Hr).
  rewrite (fine_init_ok T rest F) in Hrun |- * by lia.
  rewrite bind_some in Hrun. rewrite bind_some.
  replace (2 ^ n) with (S (2 ^ n - 1)) at 1 by lia.
  rewrite for_loop_snoc, Hrun, bind_some, Hlast, bind_some.
  cbn [fi_frame]. rewrite passes_split. reflexivity.
Qed.

Lemma ssse3_faults n frame temp mask frozen info t rest :
  n + 4 < 32 -> length frame = 2 ^ (n + 4) -> length t = 2 ^ (n + 4) ->
  Forall is_byte t ->
  interleave_frozen_and_info_bits temp mask frozen info (2 ^ (n + 4))
  = Some (t ++ rest) ->
  load (passes n (2 ^ (n + 4) / 2) t ++ rest) (2 ^ (n + 4)) = None ->
  encodepolar_ssse3 load store frame temp mask frozen info (2 ^ (n + 4)) = None.
Proof.
  intros Hn Hf Hlen Hb Hil Hr.
  unfold encodepolar_ssse3.
  rewrite (ssse3_coarse_passes n frame temp mask frozen info t rest)
    by assumption.
  rewrite bind_some. cbn [co_frame co_temp co_num_branches].
  set (T := passes n (2 ^ (n + 4) / 2) t) in *.
  assert (LT : length T = 16 * 2 ^ n).
  { unfold T. rewrite passes_length, Hlen, pow2_16. lia. }
  assert (BT : Forall is_byte T).
  { apply passes_in; [unfold is_byte; lia | apply is_byte_lxor | exact Hb]. }
  set (F := match n with O => frame | S _ => T end).
  assert (LF : length F = length T).
  { unfold F. destruct n; [|reflexivity]. rewrite Hf, LT, pow2_16. lia. }
  pose proof (pow2_pos n) as Hpos.
  destruct (fine_loop_last T rest F (2 ^ n) BT LF LT Hpos)
    as (Hrun & Hlast & _).
  rewrite pow2_16, Nat.mul_comm in Hr. specialize (Hlast Hr).
  rewrite (fine_init_ok T rest F) in Hrun |- * by lia.
  rewrite bind_some in Hrun. rewrite bind_some.
  replace (2 ^ n) with (S (2 ^ n - 1)) at 1 by lia.
  rewrite for_loop_snoc, Hrun, bind_some, Hlast. reflexivity.
Qed.
End ssse3_correct.

(** The two pairs of primitives. *)
Lemma loadu_ok m p :
  p mod 16 = 0 -> p + 16 <= length m ->
  _mm_loadu_si128 m p = Some (take 16 (drop p m)).
Proof. intros _ H. unfold _mm_loadu_si128. rewrite decide_True; auto. Qed.

Lemma storeu_ok m p v :
  p mod 16 = 0 -> p + 16 <= length m ->
  _mm_storeu_si128 m p v = Some (take p m ++ v ++ drop (p + 16) m).
Proof. intros _ H. unfold _mm_storeu_si128. rewrite decide_True; auto. Qed.

Lemma load_ok_aligned base m p :
  base mod 16 = 0 -> p mod 16 = 0 -> p + 16 <= length m ->
  _mm_load_si128 base m p = Some (take 16 (drop p m)).
Proof.
  intros Hb Hp H. unfold _mm_load_si128. rewrite decide_True by mlia.
  apply loadu_ok; assumption.
Qed.

Lemma store_ok_aligned base m p v :
  base mod 16 = 0 -> p mod 16 = 0 -> p + 16 <= length m ->
  _mm_store_si128 base m p v = Some (take p m ++ v ++ drop (p + 16) m).
Proof.
  intros Hb Hp H. unfold _mm_store_si128. rewrite decide_True by mlia.
  apply storeu_ok; assumption.
Qed.

Lemma loadu_past_end m : _mm_loadu_si128 m (length m) = None.
Proof. unfold _mm_loadu_si128. rewrite decide_False by lia. reflexivity. Qed.

Lemma load_past_end base m : _mm_load_si128 base m (length m) = None.
Proof.
  unfold _mm_load_si128. destruct (decide _); [apply loadu_past_end | reflexivity].
Qed.

Lemma match_pos {A} k (a b : A) :
  1 <= k -> match k with O => a | S _ => b end = b.
Proof. destruct k; [lia | reflexivity]. Qed.

Lemma bits_bytes (v : list Z) : Forall is_bit v -> Forall is_byte v.
Proof. intros H. eapply Forall_impl; [exact H | exact is_bit_byte]. Qed.

(** ** The load past the end *)

Section ssse3_last_load.
Variable load : list Z -> nat -> option vec.
Variable store : list Z -> nat -> vec -> option (list Z).
Hypothesis load_ok : forall m p,
  p mod 16 = 0 -> p + 16 <= length m -> load m p = Some (take 16 (drop p m)).
Hypothesis store_ok : forall m p v,
  p mod 16 = 0 -> p + 16 <= length m ->
  store m p v = Some (take p m ++ v ++ drop (p + 16) m).
Hypothesis load_past : forall m, load m (length m) = None.

(** On buffers of the size the contract asks for, the encoder faults at
    the last load of its last loop. *)
Lemma ssse3_faults_on_valid_input n frame temp mask frozen info :
  n + 4 < 32 -> valid_input (2 ^ (n + 4)) frame temp mask frozen info ->
  Forall is_byte frozen -> Forall is_byte info ->
  encodepolar_ssse3 load store frame temp mask frozen info (2 ^ (n + 4)) = None.
Proof.
  intros Hn V Hfz Hin.
  destruct (interleave_valid _ _ _ _ _ _ V) as (t & Hil & Hlen & Hat).
  assert (Hb : Forall is_byte t) by (eapply interleaved_in; eauto).
  rewrite <- (app_nil_r t) in Hil.
  apply (ssse3_faults load store load_ok store_ok n frame temp mask frozen info
           t []); try assumption; [destruct V; assumption|].
  rewrite app_nil_r. set (T := passes n (2 ^ (n + 4) / 2) t).
  replace (2 ^ (n + 4)) with (length T)
    by (unfold T; rewrite passes_length; exact Hlen).
  apply load_past.
Qed.

Lemma last_load_past_end_holds n frame temp mask frozen info :
  n + 4 < 32 -> valid_input (2 ^ (n + 4)) frame temp mask frozen info ->
  Forall is_byte frozen -> Forall is_byte info ->
  last_load_past_end load store frame temp mask frozen info (2 ^ (n + 4)).
Proof.
  intros Hn V Hfz Hin.
  destruct (interleave_valid _ _ _ _ _ _ V) as (t & Hil & Hlen & Hat).
  assert (Hb : Forall is_byte t) by (eapply interleaved_in; eauto).
  assert (Hfr : length frame = 2 ^ (n + 4)) by (destruct V; assumption).
  assert (Hil' : interleave_frozen_and_info_bits temp mask frozen info
                   (2 ^ (n + 4)) = Some (t ++ []))
    by (rewrite app_nil_r; exact Hil).
  pose proof (ssse3_coarse_passes load store load_ok store_ok
                n frame temp mask frozen info t [] Hn Hfr Hlen Hb Hil') as Hco.
  set (T := passes n (2 ^ (n + 4) / 2) t) in *.
  set (F := match n with O => frame | S _ => T end) in *.
  pose proof (pow2_pos n) as Hpos. pose proof (pow2_16 n) as H16.
  assert (LT : length T = 2 ^ (n + 4))
    by (unfold T; rewrite passes_length; exact Hlen).
  assert (LT' : length T = 16 * 2 ^ n) by lia.
  assert (BT : Forall is_byte T).
  { apply passes_in; [unfold is_byte; lia | apply is_byte_lxor | exact Hb]. }
  assert (LF : length F = length T).
  { unfold F. destruct n; [|reflexivity]. congruence. }
  assert (Eend : 16 * (2 ^ n - 1) + 16 = 2 ^ (n + 4)) by lia.
  assert (Eend' : 16 * 2 ^ n = 2 ^ (n + 4)) by lia.
  assert (Hpast : load T (2 ^ (n + 4)) = None)
    by (rewrite <- LT; apply load_past).
  destruct (fine_loop_last load store load_ok store_ok T [] F (2 ^ n)
              BT LF LT' Hpos) as (Hrun & Hnone & _).
  rewrite app_nil_r in Hco, Hrun, Hnone. rewrite Eend' in Hnone.
  eexists _, _, (passes (n + 4) (2 ^ (n + 4) / 2) t).
  split; [exact Hco|]. cbn [co_frame co_temp co_num_branches].
  split; [exact LT|]. split; [exact Eend'|].
  split; [exact Hrun|]. cbn [fi_temp_ptr].
  split; [exact Eend|]. split; [exact Hpast|].
  split; [exact (Hnone Hpast)|].
  split; [apply ssse3_faults_on_valid_input; assumption|].
  split; [rewrite passes_length; exact Hlen|].
  intros load' r Hagree Hr.
  assert (load_ok' : forall m p, p mod 16 = 0 -> p + 16 <= length m ->
                       load' m p = Some (take 16 (drop p m))).
  { intros m p Hp Hl. rewrite Hagree by exact Hl. apply load_ok; assumption. }
  pose proof (ssse3_coarse_passes load' store load_ok' store_ok
                n frame temp mask frozen info t [] Hn Hfr Hlen Hb Hil') as Hco'.
  destruct (fine_loop_last load' store load_ok' store_ok T [] F (2 ^ n)
              BT LF LT' Hpos) as (Hrun' & _ & Hlast').
  fold T F in Hco'.
  rewrite app_nil_r in Hco', Hrun', Hlast'. rewrite Eend' in Hlast'.
  specialize (Hlast' r Hr).
  split; [exact Hco'|]. split; [exact Hrun'|].
  eexists. split; [exact Hlast'|]. cbn [fi_r_temp0 fi_frame].
  split; [reflexivity|].
  split; [rewrite passes_split; reflexivity|].
  rewrite (ssse3_encodes load' store load_ok' store_ok
             n frame temp mask frozen info t [] r Hn Hfr Hlen Hb Hil')
    by (rewrite app_nil_r; exact Hr).
  rewrite app_nil_r. reflexivity.
Qed.
End ssse3_last_load.

(** C1, on buffers of the size the contract asks for: for a frame of
    N = 2^k cells with N >= 16, a [temp] of N bytes, and a mask, frozen
    values and information values that meet the length preconditions, with
    values 0 or 1, the scalar encoder returns its N-byte codeword, and
    neither SSSE3 encoder returns a frame at all: both fault, on the load
    from [temp + N] in the last iteration of their last loop, which is
    executed before that iteration's store.  The aligned encoder is called
    on buffers at addresses that are multiples of 16, as its contract
    asks. *)
Theorem ssse3_encoders_fault_on_contract_temp
    (k : nat) (frame temp mask frozen info : list Z) (frame_addr temp_addr : nat) :
  4 <= k < 32 ->
  valid_input (2 ^ k) frame temp mask frozen info ->
  Forall is_bit frozen -> Forall is_bit info ->
  frame_addr mod 16 = 0 -> temp_addr mod 16 = 0 ->
  (exists code temp_g,
     volk_8u_x3_encodepolar_8u_x2_generic frame temp mask frozen info (2 ^ k)
     = Some (code, temp_g) /\
     length code = 2 ^ k) /\
  volk_8u_x3_encodepolar_8u_x2_u_ssse3 frame temp mask frozen info (2 ^ k)
  = None /\
  volk_8u_x3_encodepolar_8u_x2_a_ssse3 frame_addr temp_addr
    frame temp mask frozen info (2 ^ k)
  = None.
Proof.
  intros Hk V Hfz Hin Hfa Hta.
  apply bits_bytes in Hfz, Hin.
  replace k with (k - 4 + 4) in * by lia. set (n := k - 4) in *.
  split; [|split].
  - destruct (generic_encodes (n + 4) frame temp mask frozen info)
      as (t & Hil & Hlen & _ & Hg); [lia | exact V |].
    rewrite match_pos in Hg by lia.
    eexists _, _. split; [exact Hg|]. rewrite passes_length. exact Hlen.
  - apply ssse3_faults_on_valid_input;
      auto using loadu_ok, storeu_ok, loadu_past_end; lia.
  - apply ssse3_faults_on_valid_input;
      auto using load_ok_aligned, store_ok_aligned, load_past_end; lia.
Qed.

Lemma ssse3_encoders_fault_on_contract_temp_witness :
  (exists code temp_g,
     volk_8u_x3_encodepolar_8u_x2_generic (replicate 16 7%Z) (replicate 16 9%Z)
       [255; 255; 255; 0; 255; 0; 0; 0; 255; 255; 0; 0; 255; 0; 0; 0]%Z
       [0; 1; 0; 0; 1; 0; 0]%Z [1; 0; 1; 1; 0; 1; 1; 1; 0]%Z (2 ^ 4)
     = Some (code, temp_g) /\
     length code = 2 ^ 4) /\
  volk_8u_x3_encodepolar_8u_x2_u_ssse3 (replicate 16 7%Z) (replicate 16 9%Z)
    [255; 255; 255; 0; 255; 0; 0; 0; 255; 255; 0; 0; 255; 0; 0; 0]%Z
    [0; 1; 0; 0; 1; 0; 0]%Z [1; 0; 1; 1; 0; 1; 1; 1; 0]%Z (2 ^ 4)
  = None /\
  volk_8u_x3_encodepolar_8u_x2_a_ssse3 1024 2048
    (replicate 16 7%Z) (replicate 16 9%Z)
    [255; 255; 255; 0; 255; 0; 0; 0; 255; 255; 0; 0; 255; 0; 0; 0]%Z
    [0; 1; 0; 0; 1; 0; 0]%Z [1; 0; 1; 1; 0; 1; 1; 1; 0]%Z (2 ^ 4)
  = None.
Proof.
  apply (ssse3_encoders_fault_on_contract_temp 4);
    [lia | constructor; reflexivity | all_bits | all_bits
     | reflexivity | reflexivity].
Defined.

(** C10: for a frame of N = 2^k >= 16 cells, the last iteration of the last
    loop of either SSSE3 encoder loads 16 bytes from temp at offset N, past
    the N bytes the caller has to provide: the access is out of range (and
    the iteration faults on it).  What the load yields reaches no byte of
    frame: with a load that yields any register at all at that offset, and
    is the same inside the buffer, the iteration completes and the encoder
    returns one and the same frame, whatever the register. *)
Theorem ssse3_last_load_is_past_the_end
    (k : nat) (frame temp mask frozen info : list Z) (frame_addr temp_addr : nat) :
  4 <= k < 32 ->
  valid_input (2 ^ k) frame temp mask frozen info ->
  Forall is_byte frozen -> Forall is_byte info ->
  frame_addr mod 16 = 0 -> temp_addr mod 16 = 0 ->
  last_load_past_end _mm_loadu_si128 _mm_storeu_si128
    frame temp mask frozen info (2 ^ k) /\
  last_load_past_end (_mm_load_si128 temp_addr) (_mm_store_si128 frame_addr)
    frame temp mask frozen info (2 ^ k).
Proof.
  intros Hk V Hfz Hin Hfa Hta.
  replace k with (k - 4 + 4) in * by lia. split.
  - apply last_load_past_end_holds;
      auto using loadu_ok, storeu_ok, loadu_past_end; lia.
  - apply last_load_past_end_holds;
      auto using load_ok_aligned, store_ok_aligned, load_past_end; lia.
Qed.

Lemma ssse3_last_load_is_past_the_end_witness :
  last_load_past_end _mm_loadu_si128 _mm_storeu_si128
    (replicate 16 7%Z) (replicate 16 9%Z)
    [255; 255; 255; 0; 255; 0; 0; 0; 255; 255; 0; 0; 255; 0; 0; 0]%Z
    [0; 1; 0; 0; 1; 0; 0]%Z [1; 0; 1; 1; 0; 1; 1; 1; 0]%Z (2 ^ 4) /\
  last_load_past_end (_mm_load_si128 2048) (_mm_store_si128 1024)
    (replicate 16 7%Z) (replicate 16 9%Z)
    [255; 255; 255; 0; 255; 0; 0; 0; 255; 255; 0; 0; 255; 0; 0; 0]%Z
    [0; 1; 0; 0; 1; 0; 0]%Z [1; 0; 1; 1; 0; 1; 1; 1; 0]%Z (2 ^ 4).
Proof.
  apply (ssse3_last_load_is_past_the_end 4);
    [lia | constructor; reflexivity | apply bits_bytes; all_bits
     | apply bits_bytes; all_bits | reflexivity | reflexivity].
Defined.


(** * Further properties *)

(** ** [log2_of_power_of_2] on any value *)

Lemma neq0_lor x y : neq0 (Z.lor x y) = Z.lor (neq0 x) (neq0 y).
Proof.
  unfold neq0. pose proof (Z.lor_eq_0_iff x y) as H.
  repeat case_decide; try reflexivity; tauto.
Qed.

Lemma neq0_land_lor a b m :
  neq0 (Z.land (Z.lor a b) m)
  = Z.lor (neq0 (Z.land a m)) (neq0 (Z.land b m)).
Proof. rewrite Z.land_lor_distr_l. apply neq0_lor. Qed.

(** X1: On 0 the result is 0, and on the bitwise OR of two values it is the
    bitwise OR of the results on each. *)
Theorem log2_of_power_of_2_lor (a b : Z) :
  log2_of_power_of_2 0 = 0%Z /\
  log2_of_power_of_2 (Z.lor a b)
  = Z.lor (log2_of_power_of_2 a) (log2_of_power_of_2 b).
Proof.
  split; [reflexivity|].
  unfold log2_of_power_of_2. cbv zeta. rewrite !neq0_land_lor.
  generalize (neq0 (Z.land a b0)) (neq0 (Z.land a b1)) (neq0 (Z.land a b2))
             (neq0 (Z.land a b3)) (neq0 (Z.land a b4))
             (neq0 (Z.land b b0)) (neq0 (Z.land b b1)) (neq0 (Z.land b b2))
             (neq0 (Z.land b b3)) (neq0 (Z.land b b4)).
  intros. apply Z.bits_inj'. intros n Hn.
  repeat first [rewrite Z.lor_spec | rewrite Z.shiftl_spec by lia]. btauto.
Qed.

(** X2: Whatever the value, the result is a 5-bit number: the encoders never
    run more than 31 passes. *)
Theorem log2_of_power_of_2_range (val : Z) :
  (0 <= log2_of_power_of_2 val <= 31)%Z.
Proof.
  unfold log2_of_power_of_2, neq0. cbv zeta.
  repeat case_decide; vm_compute; split; discriminate.
Qed.

(** ** [interleave_frozen_and_info_bits]: bounds and round trip *)

(** The state after [i] of [n] iterations, when the first [n] mask cells
    ask for no more values than there are. *)
Lemma interleave_run_prefix target mask frozen info n i :
  i <= n -> n <= length mask -> n <= length target ->
  count_frozen (take n mask) <= length frozen ->
  count_info (take n mask) <= length info ->
  exists t,
    interleave_run target mask frozen info i
    = Some (IlState t i (count_frozen (take i mask)) (count_info (take i mask))) /\
    length t = length target /\
    (forall k, k < i ->
       t !! k = interleaved_at mask frozen info k /\ is_Some (t !! k)) /\
    (forall k, i <= k -> t !! k = target !! k).
Proof.
  intros Hin Hm Ht Hf Hi. induction i as [|i IH].
  - exists target. repeat split; try reflexivity; intros; lia.
  - destruct IH as (t & Hrun & Hlen & Hlo & Hhi); [lia|].
    unfold interleave_run in *. rewrite for_loop_snoc, Hrun, bind_some.
    destruct (lookup_lt_is_Some_2 mask i) as [m Hmi]; [lia|].
    unfold interleave_step. cbn [il_target il_bit il_frozen il_info].
    rewrite Hmi, bind_some.
    pose proof (count_frozen_take_S mask i m Hmi) as Ef.
    pose proof (count_info_take_S mask i m Hmi) as Ei.
    pose proof (count_frozen_take_mono mask (S i) n Hin) as Lf.
    pose proof (count_info_take_mono mask (S i) n Hin) as Li.
    assert (Hat : interleaved_at mask frozen info i
                  = if decide (m = 0%Z) then info !! count_info (take i mask)
                    else frozen !! count_frozen (take i mask)).
    { unfold interleaved_at. rewrite Hmi. reflexivity. }
    destruct (decide (m = 0%Z)) as [Hz|Hz].
    + destruct (lookup_lt_is_Some_2 info (count_info (take i mask))) as [v Hv];
        [lia|].
      rewrite Hv, bind_some, store8_Some, bind_some by lia.
      exists (<[i := v]> t). rewrite Ef, Ei, Nat.add_0_r, Nat.add_1_r.
      split; [reflexivity|]. split; [rewrite length_insert; exact Hlen|].
      split.
      * intros k Hk. destruct (decide (k = i)) as [->|Hne].
        -- rewrite list_lookup_insert_eq by lia. rewrite Hat, Hv. eauto.
        -- rewrite list_lookup_insert_ne by lia. apply Hlo. lia.
      * intros k Hk. rewrite list_lookup_insert_ne by lia. apply Hhi. lia.
    + destruct (lookup_lt_is_Some_2 frozen (count_frozen (take i mask))) as [v Hv];
        [lia|].
      rewrite Hv, bind_some, store8_Some, bind_some by lia.
      exists (<[i := v]> t). rewrite Ef, Ei, Nat.add_0_r, Nat.add_1_r.
      split; [reflexivity|]. split; [rewrite length_insert; exact Hlen|].
      split.
      * intros k Hk. destruct (decide (k = i)) as [->|Hne].
        -- rewrite list_lookup_insert_eq by lia. rewrite Hat, Hv. eauto.
        -- rewrite list_lookup_insert_ne by lia. apply Hlo. lia.
      * intros k Hk. rewrite list_lookup_insert_ne by lia. apply Hhi. lia.
Qed.

(** A run that succeeds stayed inside its four buffers. *)
Lemma interleave_run_bounds target mask frozen info n s :
  interleave_run target mask frozen info n = Some s ->
  n <= length mask /\ n <= length target /\
  count_frozen (take n mask) <= length frozen /\
  count_info (take n mask) <= length info.
Proof.
  revert s. induction n as [|n IH]; intros s Hrun.
  - simpl. lia.
  - unfold interleave_run in *. rewrite for_loop_snoc in Hrun.
    destruct (for_loop n _ _) as [s0|] eqn:E0; [|discriminate].
    rewrite bind_some in Hrun.
    destruct (IH s0 eq_refl) as (Hm & Ht & Hf & Hi).
    destruct (interleave_run_prefix target mask frozen info n n)
      as (t & E1 & Hlen & _); try lia.
    unfold interleave_run in E1. rewrite E0 in E1. injection E1 as ->.
    unfold interleave_step in Hrun.
    cbn [il_target il_bit il_frozen il_info] in Hrun.
    destruct (mask !! n) as [m|] eqn:Hmn; [|discriminate].
    rewrite bind_some in Hrun.
    pose proof (lookup_lt_Some _ _ _ Hmn) as Hlt.
    rewrite (count_frozen_take_S _ _ _ Hmn), (count_info_take_S _ _ _ Hmn).
    destruct (decide (m = 0%Z)).
    + destruct (info !! _) as [v|] eqn:Hv; [|discriminate].
      apply lookup_lt_Some in Hv. rewrite bind_some in Hrun.
      unfold store8 in Hrun. case_decide; [|discriminate]. lia.
    + destruct (frozen !! _) as [v|] eqn:Hv; [|discriminate].
      apply lookup_lt_Some in Hv. rewrite bind_some in Hrun.
      unfold store8 in Hrun. case_decide; [|discriminate]. lia.
Qed.

(** X3: The interleaving succeeds exactly when the mask and the target have
    [frame_size] cells and the first [frame_size] mask cells ask for no more
    frozen and information values than the two streams hold; otherwise a
    cursor runs past the end of its buffer and the call faults. *)
Theorem interleave_succeeds_iff (target mask frozen info : list Z) (n : nat) :
  is_Some (interleave_frozen_and_info_bits target mask frozen info n) <->
  n <= length mask /\ n <= length target /\
  count_frozen (take n mask) <= length frozen /\
  count_info (take n mask) <= length info.
Proof.
  unfold interleave_frozen_and_info_bits. split.
  - intros [out Hout].
    destruct (interleave_run target mask frozen info n) as [s|] eqn:E;
      [|discriminate].
    exact (interleave_run_bounds _ _ _ _ _ _ E).
  - intros (Hm & Ht & Hf & Hi).
    destruct (interleave_run_prefix target mask frozen info n n)
      as (t & E & _); try lia.
    rewrite E. eexists. reflexivity.
Qed.

Lemma interleave_keeps_rest (target mask frozen info out : list Z) (n : nat) :
  interleave_frozen_and_info_bits target mask frozen info n = Some out ->
  length out = length target /\ drop n out = drop n target.
Proof.
  unfold interleave_frozen_and_info_bits. intros Hout.
  destruct (interleave_run target mask frozen info n) as [s|] eqn:E;
    [|discriminate].
  destruct (interleave_run_bounds _ _ _ _ _ _ E) as (Hm & Ht & Hf & Hi).
  destruct (interleave_run_prefix target mask frozen info n n)
    as (t & E' & Hlen & _ & Hhi); try lia.
  rewrite E' in E. injection E as <-. injection Hout as <-. simpl.
  split; [exact Hlen|].
  apply list_eq. intros k. rewrite !lookup_drop. apply Hhi. lia.
Qed.

(** X4: The interleaving writes the first [frame_size] cells of the target and
    nothing else: the target keeps its length and its cells from
    [frame_size] on. *)
Theorem interleave_writes_prefix_only
    (target mask frozen info out : list Z) (n : nat) :
  interleave_frozen_and_info_bits target mask frozen info n = Some out ->
  length out = length target /\ drop n out = drop n target.
Proof. apply interleave_keeps_rest. Qed.

Lemma interleave_writes_prefix_only_witness :
  length [0; 1; 8; 9]%Z = length [6; 7; 8; 9]%Z /\
  drop 2 [0; 1; 8; 9]%Z = drop 2 [6; 7; 8; 9]%Z.
Proof.
  apply (interleave_writes_prefix_only [6; 7; 8; 9]%Z [255; 0; 0]%Z [0]%Z
           [1; 1]%Z [0; 1; 8; 9]%Z 2).
  reflexivity.
Defined.

Lemma select_frozen_snoc (l : list Z) m (cells : list Z) c :
  cells !! length l = Some c ->
  select_frozen (l ++ [m]) cells
  = select_frozen l cells ++ (if decide (m = 0%Z) then [] else [c]).
Proof.
  revert cells. induction l as [|x l IH]; intros [|y cells] H; try discriminate.
  - simpl in *. injection H as ->. destruct (decide (m = 0%Z)); [|reflexivity].
    destruct cells; reflexivity.
  - simpl in *. rewrite (IH cells H).
    destruct (decide (x = 0%Z)); reflexivity.
Qed.

Lemma select_info_snoc (l : list Z) m (cells : list Z) c :
  cells !! length l = Some c ->
  select_info (l ++ [m]) cells
  = select_info l cells ++ (if decide (m = 0%Z) then [c] else []).
Proof.
  revert cells. induction l as [|x l IH]; intros [|y cells] H; try discriminate.
  - simpl in *. injection H as ->. destruct (decide (m = 0%Z)); [reflexivity|].
    destruct cells; reflexivity.
  - simpl in *. rewrite (IH cells H).
    destruct (decide (x = 0%Z)); reflexivity.
Qed.

Lemma select_interleaved (mask frozen info out : list Z) n i :
  i <= n -> n <= length mask ->
  count_frozen (take n mask) <= length frozen ->
  count_info (take n mask) <= length info ->
  (forall k, k < n ->
     out !! k = interleaved_at mask frozen info k /\ is_Some (out !! k)) ->
  select_frozen (take i mask) out = take (count_frozen (take i mask)) frozen /\
  select_info (take i mask) out = take (count_info (take i mask)) info.
Proof.
  intros Hin Hm Hf Hi Hat. induction i as [|i IH].
  - split; reflexivity.
  - destruct IH as [IHf IHi]; [lia|].
    destruct (lookup_lt_is_Some_2 mask i) as [m Hmi]; [lia|].
    destruct (Hat i ltac:(lia)) as [Ev [c Hc]].
    pose proof (count_frozen_take_mono mask (S i) n Hin) as Lf.
    pose proof (count_info_take_mono mask (S i) n Hin) as Li.
    rewrite (count_frozen_take_S _ _ _ Hmi) in *.
    rewrite (count_info_take_S _ _ _ Hmi) in *.
    rewrite (take_S_r _ _ _ Hmi).
    assert (Hl : length (take i mask) = i) by (rewrite length_take; lia).
    rewrite (select_frozen_snoc _ m out c), (select_info_snoc _ m out c)
      by (rewrite Hl; exact Hc).
    rewrite IHf, IHi. rewrite Hc in Ev. unfold interleaved_at in Ev.
    rewrite Hmi, bind_some in Ev.
    destruct (decide (m = 0%Z)).
    + rewrite Nat.add_0_r, app_nil_r, Nat.add_1_r.
      rewrite (take_S_r _ _ c) by (symmetry; exact Ev). split; reflexivity.
    + rewrite Nat.add_0_r, app_nil_r, Nat.add_1_r.
      rewrite (take_S_r _ _ c) by (symmetry; exact Ev). split; reflexivity.
Qed.

Lemma interleave_selects (target mask frozen info out : list Z) (n : nat) :
  length mask = n ->
  count_frozen mask = length frozen -> count_info mask = length info ->
  interleave_frozen_and_info_bits target mask frozen info n = Some out ->
  select_frozen mask out = frozen /\ select_info mask out = info.
Proof.
  intros Hm Hf Hi Hout. unfold interleave_frozen_and_info_bits in Hout.
  destruct (interleave_run target mask frozen info n) as [s|] eqn:E;
    [|discriminate].
  destruct (interleave_run_bounds _ _ _ _ _ _ E) as (_ & Ht & Hf' & Hi').
  destruct (interleave_run_prefix target mask frozen info n n)
    as (t & E' & _ & Hlo & _); try lia.
  rewrite E' in E. injection E as <-. injection Hout as <-. simpl.
  destruct (select_interleaved mask frozen info t n n) as [Sf Si];
    try assumption; try lia.
  rewrite firstn_all2 in Sf, Si by lia.
  rewrite Sf, Si, Hf, Hi, !firstn_all. split; reflexivity.
Qed.

(** X5: Round trip: from the interleaved buffer and the mask the two streams
    are read back.  On inputs that meet the count preconditions, the cells
    at the nonzero mask positions are the frozen values, in order, and the
    cells at the zero mask positions are the information values. *)
Theorem interleave_round_trip (target mask frozen info out : list Z) (n : nat) :
  length mask = n ->
  count_frozen mask = length frozen -> count_info mask = length info ->
  interleave_frozen_and_info_bits target mask frozen info n = Some out ->
  select_frozen mask out = frozen /\ select_info mask out = info.
Proof. apply interleave_selects. Qed.

Lemma interleave_round_trip_witness :
  select_frozen [255; 0; 0; 1]%Z [4; 6; 7; 5]%Z = [4; 5]%Z /\
  select_info [255; 0; 0; 1]%Z [4; 6; 7; 5]%Z = [6; 7]%Z.
Proof.
  apply (interleave_round_trip [0; 0; 0; 0]%Z [255; 0; 0; 1]%Z [4; 5]%Z
           [6; 7]%Z [4; 6; 7; 5]%Z 4); reflexivity.
Defined.

(** ** [encodepolar_single_stage]: bounds *)

(** One branch of the scalar pass, on buffers of any two lengths. *)
Lemma stage_branch_cells temp half b f :
  0 < half ->
  (b + 1) * (2 * half) <= length temp -> (b + 1) * (2 * half) <= length f ->
  exists f', stage_branch temp half (StageState f (b * (2 * half)) (b * (2 * half)))
             = Some (StageState f' ((b + 1) * (2 * half)) ((b + 1) * (2 * half))) /\
             cells_done temp half (b * (2 * half)) ((b + 1) * (2 * half)) f f'.
Proof.
  intros Hh Ht Hf.
  destruct (chunks_done temp half 1 half (stage_bit temp half)
              ltac:(lia) ltac:(lia)
              (fun f0 fp tp => stage_bit_ok temp half f0 fp tp Hh)
              half f (b * (2 * half)) (b * (2 * half)))
    as (f' & Hrun & (L & W & U));
    [lia | lia | lia | apply Nat.mod_1_r | apply Nat.mod_1_r |].
  rewrite Nat.mul_1_r in *.
  exists f'. unfold stage_branch. rewrite Hrun, bind_some.
  cbn [st_frame frame_ptr temp_ptr]. split; [do 2 f_equal; lia|].
  split; [exact L|]. split.
  - intros i Hi. destruct (decide (i < b * (2 * half) + half)) as [Hlo|Hhi].
    + destruct (W (i - b * (2 * half))) as [Wa _]; [lia|].
      replace (b * (2 * half) + (i - b * (2 * half))) with i in Wa by lia.
      rewrite Wa. f_equal.
      replace i with (b * (2 * half) + (i - b * (2 * half))) at 3 by lia.
      rewrite pass_at_lo by lia. reflexivity.
    + destruct (W (i - b * (2 * half) - half)) as [_ Wb]; [lia|].
      replace (b * (2 * half) + half + (i - b * (2 * half) - half))
        with i in Wb by lia.
      rewrite Wb. f_equal.
      replace i with (b * (2 * half) + half + (i - b * (2 * half) - half))
        at 2 by lia.
      rewrite pass_at_hi by lia. reflexivity.
  - intros i Hi. apply U. lia.
Qed.

Lemma stage_branches_cells temp half nb f :
  0 < half ->
  nb * (2 * half) <= length temp -> nb * (2 * half) <= length f ->
  exists f', for_loop nb (stage_branch temp half) (StageState f 0 0)
             = Some (StageState f' (nb * (2 * half)) (nb * (2 * half))) /\
             cells_done temp half 0 (nb * (2 * half)) f f'.
Proof.
  intros Hh Ht Hf. induction nb as [|nb IH].
  - exists f. split; [reflexivity|]. repeat split; intros; lia.
  - destruct IH as (f1 & Hrun & (L1 & W1 & U1)); [simpl in *; lia ..|].
    rewrite for_loop_snoc, Hrun, bind_some.
    destruct (stage_branch_cells temp half nb f1 Hh) as (f2 & Hb & (L2 & W2 & U2));
      [simpl in *; lia | simpl in *; lia |].
    exists f2. rewrite Hb. replace (nb + 1) with (S nb) in * by lia.
    split; [reflexivity|]. split; [congruence|]. split.
    + intros i Hi. destruct (decide (i < nb * (2 * half))).
      * rewrite U2 by lia. apply W1. lia.
      * apply W2. lia.
    + intros i Hi. rewrite U2 by lia. apply U1. simpl in *. lia.
Qed.

(** A stage that succeeds stayed inside its two buffers. *)
Lemma stage_bit_bounds temp half s s' :
  stage_bit temp half s = Some s' ->
  temp_ptr s + 2 <= length temp /\
  frame_ptr s + half + 1 <= length (st_frame s) /\
  frame_ptr s' = frame_ptr s + 1 /\ temp_ptr s' = temp_ptr s + 2 /\
  length (st_frame s') = length (st_frame s).
Proof.
  unfold stage_bit. intros H.
  destruct (temp !! temp_ptr s) as [x|] eqn:Hx; [|discriminate].
  destruct (temp !! (temp_ptr s + 1)) as [y|] eqn:Hy; [|discriminate].
  rewrite !bind_some in H. apply lookup_lt_Some in Hy.
  unfold store8 in H. case_decide; [|discriminate]. rewrite bind_some in H.
  case_decide as Hl; [|discriminate]. rewrite length_insert in Hl.
  injection H as <-. simpl. rewrite !length_insert. lia.
Qed.

Lemma stage_bits_bounds temp half n s s' :
  for_loop n (stage_bit temp half) s = Some s' ->
  frame_ptr s' = frame_ptr s + n /\ temp_ptr s' = temp_ptr s + 2 * n /\
  length (st_frame s') = length (st_frame s) /\
  (0 < n -> temp_ptr s + 2 * n <= length temp /\
            frame_ptr s + half + n <= length (st_frame s)).
Proof.
  revert s'. induction n as [|n IH]; intros s' H.
  - injection H as <-. repeat split; lia.
  - rewrite for_loop_snoc in H.
    destruct (for_loop n _ s) as [s1|] eqn:E; [|discriminate].
    rewrite bind_some in H. destruct (IH s1 eq_refl) as (Hf & Ht & Hl & Hb).
    destruct (stage_bit_bounds _ _ _ _ H) as (B1 & B2 & B3 & B4 & B5).
    repeat split; lia.
Qed.

Lemma stage_branches_bounds temp half nb f s' :
  0 < half ->
  for_loop nb (stage_branch temp half) (StageState f 0 0) = Some s' ->
  frame_ptr s' = nb * (2 * half) /\ temp_ptr s' = nb * (2 * half) /\
  length (st_frame s') = length f /\
  (0 < nb -> nb * (2 * half) <= length temp /\ nb * (2 * half) <= length f).
Proof.
  intros Hh. revert s'. induction nb as [|nb IH]; intros s' H.
  - injection H as <-. simpl. repeat split; lia.
  - rewrite for_loop_snoc in H.
    destruct (for_loop nb _ _) as [s1|] eqn:E; [|discriminate].
    rewrite bind_some in H. destruct (IH s1 eq_refl) as (Hf & Ht & Hl & _).
    unfold stage_branch in H.
    destruct (for_loop half _ s1) as [s2|] eqn:E2; [|discriminate].
    rewrite bind_some in H. injection H as <-. simpl.
    destruct (stage_bits_bounds _ _ _ _ _ E2) as (B1 & B2 & B3 & B4).
    specialize (B4 Hh). repeat split; lia.
Qed.

(** X6: With at least one branch and one bit per branch, the stage succeeds
    exactly when both buffers hold the [num_branches * 2 * frame_half] cells
    it walks over; on shorter buffers it faults. *)
Theorem encodepolar_single_stage_succeeds_iff
    (frame temp : list Z) (num_branches frame_half : nat) :
  0 < num_branches -> 0 < frame_half ->
  (is_Some (encodepolar_single_stage frame temp num_branches frame_half) <->
   num_branches * (2 * frame_half) <= length temp /\
   num_branches * (2 * frame_half) <= length frame).
Proof.
  intros Hnb Hh. unfold encodepolar_single_stage. split.
  - intros [out H].
    destruct (for_loop num_branches _ _) as [s|] eqn:E; [|discriminate].
    destruct (stage_branches_bounds _ _ _ _ _ Hh E) as (_ & _ & _ & B).
    exact (B Hnb).
  - intros [Ht Hf].
    destruct (stage_branches_cells temp frame_half num_branches frame Hh Ht Hf)
      as (f' & Hrun & _).
    rewrite Hrun. eexists. reflexivity.
Qed.

Lemma encodepolar_single_stage_succeeds_iff_witness :
  is_Some (encodepolar_single_stage [0; 0; 0; 0]%Z [1; 0; 1; 1]%Z 2 1) <->
  2 * (2 * 1) <= length [1; 0; 1; 1]%Z /\ 2 * (2 * 1) <= length [0; 0; 0; 0]%Z.
Proof. apply (encodepolar_single_stage_succeeds_iff _ _ 2 1); lia. Defined.

Lemma stage_cells (frame temp : list Z) (num_branches frame_half : nat) :
  0 < frame_half ->
  num_branches * (2 * frame_half) <= length temp ->
  num_branches * (2 * frame_half) <= length frame ->
  exists frame',
    encodepolar_single_stage frame temp num_branches frame_half = Some frame' /\
    length frame' = length frame /\
    take (num_branches * (2 * frame_half)) frame'
    = take (num_branches * (2 * frame_half)) (pass frame_half temp) /\
    drop (num_branches * (2 * frame_half)) frame'
    = drop (num_branches * (2 * frame_half)) frame.
Proof.
  intros Hh Ht Hf.
  destruct (stage_branches_cells temp frame_half num_branches frame Hh Ht Hf)
    as (f' & Hrun & (L & W & U)).
  exists f'. unfold encodepolar_single_stage. rewrite Hrun, bind_some.
  split; [reflexivity|]. split; [exact L|]. split.
  - apply list_eq. intros i.
    destruct (decide (i < num_branches * (2 * frame_half))) as [Hi|Hi].
    + rewrite !lookup_take_lt by lia. rewrite pass_lookup by lia.
      apply W. lia.
    + rewrite !lookup_take_ge by lia. reflexivity.
  - apply list_eq. intros i. rewrite !lookup_drop. apply U. lia.
Qed.

(** X7: The stage writes the first [num_branches * 2 * frame_half] cells of the
    frame, each from the pair of [temp] cells of its branch, and nothing
    else: the frame keeps its length and its other cells, and what the
    written cells held before is of no effect. *)
Theorem encodepolar_single_stage_cells
    (frame temp : list Z) (num_branches frame_half : nat) :
  0 < frame_half ->
  num_branches * (2 * frame_half) <= length temp ->
  num_branches * (2 * frame_half) <= length frame ->
  exists frame',
    encodepolar_single_stage frame temp num_branches frame_half = Some frame' /\
    length frame' = length frame /\
    take (num_branches * (2 * frame_half)) frame'
    = take (num_branches * (2 * frame_half)) (pass frame_half temp) /\
    drop (num_branches * (2 * frame_half)) frame'
    = drop (num_branches * (2 * frame_half)) frame.
Proof. apply stage_cells. Qed.

Lemma encodepolar_single_stage_cells_witness :
  exists frame',
    encodepolar_single_stage [7; 7; 7; 7; 7]%Z [1; 0; 1; 1; 9; 9]%Z 2 1
    = Some frame' /\
    length frame' = length [7; 7; 7; 7; 7]%Z /\
    take (2 * (2 * 1)) frame' = take (2 * (2 * 1)) (pass 1 [1; 0; 1; 1; 9; 9]%Z) /\
    drop (2 * (2 * 1)) frame' = drop (2 * (2 * 1)) [7; 7; 7; 7; 7]%Z.
Proof.
  apply (encodepolar_single_stage_cells _ _ 2 1); simpl; lia.
Defined.

(** Without a branch, or without a bit per branch, the stage writes
    nothing. *)
Lemma encodepolar_single_stage_empty frame temp num_branches :
  encodepolar_single_stage frame temp 0 num_branches = Some frame /\
  encodepolar_single_stage frame temp num_branches 0 = Some frame.
Proof.
  split; [reflexivity|]. unfold encodepolar_single_stage.
  assert (H : forall fp tp,
             exists fp', for_loop num_branches (stage_branch temp 0)
                           (StageState frame fp tp)
                         = Some (StageState frame fp' tp)).
  { induction num_branches as [|nb IH]; intros fp tp.
    - eexists. reflexivity.
    - change (for_loop (S nb) (stage_branch temp 0) (StageState frame fp tp))
        with (for_loop nb (stage_branch temp 0) (StageState frame (fp + 0) tp)).
      apply IH. }
  destruct (H 0 0) as [fp' ->]. reflexivity.
Qed.

(** ** The scalar encoder: every frame size, any buffer contents *)

Lemma stage_succeeds frame temp num_branches frame_half :
  num_branches * (2 * frame_half) <= length temp ->
  num_branches * (2 * frame_half) <= length frame ->
  exists frame',
    encodepolar_single_stage frame temp num_branches frame_half = Some frame' /\
    length frame' = length frame.
Proof.
  intros Ht Hf. destruct frame_half as [|h].
  - exists frame. split; [|reflexivity].
    apply (encodepolar_single_stage_empty frame temp num_branches).
  - destruct (stage_cells frame temp num_branches (S h))
      as (f' & H & L & _); try lia.
    exists f'. split; assumption.
Qed.

Lemma generic_loop_safe stage frame temp num_branches frame_half :
  length frame = length temp ->
  num_branches * (2 * frame_half) <= length temp ->
  exists frame' temp',
    generic_loop stage frame temp (length temp) num_branches frame_half
    = Some (frame', temp') /\
    length frame' = length temp /\ length temp' = length temp.
Proof.
  revert frame temp num_branches frame_half.
  induction stage as [|stage IH]; intros frame temp nb h Hf Hb.
  - exists frame, temp. repeat split; assumption.
  - cbn [generic_loop].
    destruct (stage_succeeds frame temp nb h) as (f' & Hs & L); [lia | lia |].
    rewrite Hs, bind_some.
    assert (L' : length temp = length f') by congruence.
    assert (Hc : memcpy temp f' (length temp) = Some f').
    { rewrite L'. apply memcpy_full. congruence. }
    rewrite Hc, bind_some, shiftl1, shiftr1.
    destruct (IH f' f' (2 * nb) (h / 2)) as (f2 & t2 & Hrun & L2 & L3);
      [reflexivity | |].
    + rewrite <- L'. pose proof (Nat.div_mod_eq h 2). nia.
    + rewrite <- L' in *. exists f2, t2. repeat split; assumption.
Qed.

(** X8: Memory safety on every frame size: with buffers of [frame_size] bytes
    and value streams that match the mask, the scalar encoder returns, and
    never reads or writes outside a buffer, whether [frame_size] is a power
    of two or not. *)
Theorem generic_never_faults (n : nat) (frame temp mask frozen info : list Z) :
  valid_input n frame temp mask frozen info ->
  exists frame' temp',
    volk_8u_x3_encodepolar_8u_x2_generic frame temp mask frozen info n
    = Some (frame', temp') /\
    length frame' = n /\ length temp' = n.
Proof.
  intros V. destruct (interleave_valid _ _ _ _ _ _ V) as (t & Hil & Hlen & _).
  unfold volk_8u_x3_encodepolar_8u_x2_generic. cbv zeta.
  rewrite Hil, bind_some, shiftr1. rewrite <- Hlen.
  apply generic_loop_safe; [destruct V; congruence|].
  rewrite Hlen. pose proof (Nat.div_mod_eq n 2). lia.
Qed.

Lemma generic_never_faults_witness :
  exists frame' temp',
    volk_8u_x3_encodepolar_8u_x2_generic [7; 7; 7; 7; 7; 7]%Z
      [9; 9; 9; 9; 9; 9]%Z [255; 0; 0; 0; 255; 0]%Z [0; 1]%Z [1; 0; 1; 1]%Z 6
    = Some (frame', temp') /\
    length frame' = 6 /\ length temp' = 6.
Proof. apply (generic_never_faults 6). constructor; reflexivity. Defined.

(** X9: For a power-of-two frame of at least two cells the two buffers are
    pure outputs: what [frame] and [temp] hold before the call has no
    effect on what they hold after it. *)
Theorem generic_ignores_buffer_contents
    (k : nat) (frame1 temp1 frame2 temp2 mask frozen info : list Z) :
  1 <= k < 32 ->
  valid_input (2 ^ k) frame1 temp1 mask frozen info ->
  valid_input (2 ^ k) frame2 temp2 mask frozen info ->
  is_Some (volk_8u_x3_encodepolar_8u_x2_generic frame1 temp1 mask frozen info
             (2 ^ k)) /\
  volk_8u_x3_encodepolar_8u_x2_generic frame1 temp1 mask frozen info (2 ^ k)
  = volk_8u_x3_encodepolar_8u_x2_generic frame2 temp2 mask frozen info (2 ^ k).
Proof.
  intros Hk V1 V2.
  destruct (generic_encodes k _ _ _ _ _ ltac:(lia) V1) as (t1 & _ & L1 & A1 & R1).
  destruct (generic_encodes k _ _ _ _ _ ltac:(lia) V2) as (t2 & _ & L2 & A2 & R2).
  assert (t1 = t2) as ->.
  { apply list_eq. intros i. destruct (decide (i < 2 ^ k)) as [Hi|Hi].
    - destruct (A1 i Hi) as [-> _]. destruct (A2 i Hi) as [-> _]. reflexivity.
    - rewrite !lookup_ge_None_2 by lia. reflexivity. }
  rewrite R1, R2, !match_pos by lia. split; [eexists|]; reflexivity.
Qed.

Lemma generic_ignores_buffer_contents_witness :
  is_Some (volk_8u_x3_encodepolar_8u_x2_generic [7; 7]%Z [9; 9]%Z [0; 255]%Z
             [1]%Z [1]%Z (2 ^ 1)) /\
  volk_8u_x3_encodepolar_8u_x2_generic [7; 7]%Z [9; 9]%Z [0; 255]%Z [1]%Z
    [1]%Z (2 ^ 1)
  = volk_8u_x3_encodepolar_8u_x2_generic [0; 1]%Z [2; 3]%Z [0; 255]%Z [1]%Z
      [1]%Z (2 ^ 1).
Proof.
  apply (generic_ignores_buffer_contents 1);
    [lia | constructor; reflexivity | constructor; reflexivity].
Defined.

(** X10: Every cell the scalar encoder leaves in its two buffers is an
    [unsigned char] when the two value streams are: no stored exclusive or
    leaves the byte range. *)
Theorem generic_cells_are_bytes
    (k : nat) (frame temp mask frozen info : list Z) :
  1 <= k < 32 -> valid_input (2 ^ k) frame temp mask frozen info ->
  Forall is_byte frozen -> Forall is_byte info ->
  exists frame' temp',
    volk_8u_x3_encodepolar_8u_x2_generic frame temp mask frozen info (2 ^ k)
    = Some (frame', temp') /\
    Forall is_byte frame' /\ Forall is_byte temp'.
Proof.
  intros Hk V Hf Hi.
  destruct (generic_encodes k frame temp mask frozen info)
    as (t & _ & Hlen & Hat & Hrun); [lia | exact V |].
  rewrite match_pos in Hrun by lia.
  assert (Hb : Forall is_byte (passes k (2 ^ k / 2) t)).
  { apply passes_in; [unfold is_byte; lia | apply is_byte_lxor |].
    eapply interleaved_in; eauto. }
  eexists _, _. split; [exact Hrun|]. split; exact Hb.
Qed.

Lemma generic_cells_are_bytes_witness :
  exists frame' temp',
    volk_8u_x3_encodepolar_8u_x2_generic [7; 7]%Z [9; 9]%Z [0; 255]%Z [200]%Z
      [100]%Z (2 ^ 1) = Some (frame', temp') /\
    Forall is_byte frame' /\ Forall is_byte temp'.
Proof.
  apply (generic_cells_are_bytes 1);
    [lia | constructor; reflexivity | |];
    repeat (apply List.Forall_cons; [unfold is_byte; lia|]); apply List.Forall_nil.
Defined.

(** ** The SSSE3 encoders: what they need and what they leave *)

Lemma memcpy_length dst src n r :
  memcpy dst src n = Some r -> length r = length dst.
Proof.
  unfold memcpy. case_decide as H; [|discriminate]. intros [= <-].
  rewrite length_app, length_take, length_drop. lia.
Qed.

Lemma for_loop_first_fault {A} (body : A -> option A) n s :
  body s = None -> for_loop (S n) body s = None.
Proof. intros H. cbn [for_loop]. rewrite H. reflexivity. Qed.

Section ssse3_shape.
Variable load : list Z -> nat -> option vec.
Variable store : list Z -> nat -> vec -> option (list Z).

(** The coarse tier hands over at least as many branches as it started
    with, in a [temp] of unchanged length. *)
Lemma coarse_loop_result stage frame temp frame_size num_branches frame_half c :
  coarse_loop load store stage frame temp frame_size num_branches frame_half
  = Some c ->
  num_branches <= co_num_branches c /\ length (co_temp c) = length temp.
Proof.
  revert frame temp num_branches frame_half.
  induction stage as [|stage IH]; intros frame temp nb h H.
  - injection H as <-. simpl. lia.
  - cbn [coarse_loop] in H. case_decide.
    + destruct (coarse_stage _ _ _ _ _ _) as [f'|]; [|discriminate].
      rewrite bind_some in H.
      destruct (memcpy temp f' frame_size) as [t'|] eqn:Hc; [|discriminate].
      rewrite bind_some in H. apply IH in H as [Hnb Hl].
      rewrite shiftl1 in Hnb. rewrite (memcpy_length _ _ _ _ Hc) in Hl. lia.
    + injection H as <-. simpl. lia.
Qed.

Lemma ssse3_coarse_result frame temp mask frozen info frame_size c :
  ssse3_coarse load store frame temp mask frozen info frame_size = Some c ->
  1 <= co_num_branches c /\ length (co_temp c) = length temp.
Proof.
  unfold ssse3_coarse. cbv zeta. intros H.
  destruct (interleave_frozen_and_info_bits _ _ _ _ _) as [t|] eqn:Hil;
    [|discriminate].
  rewrite bind_some in H. apply coarse_loop_result in H as [Hnb Hl].
  destruct (interleave_keeps_rest _ _ _ _ _ _ Hil) as [Ht _].
  split; [exact Hnb | congruence].
Qed.

(** The first chunk is loaded from offset 0 of [temp] before the last
    loop, and the loop, which always runs at least once, stores at offset 0
    of [frame] in its first iteration: an encoder whose first load or
    first store yields nothing faults. *)
Lemma ssse3_needs_first_chunk frame temp mask frozen info frame_size :
  (forall t, length t = length temp -> load t 0 = None) \/
  (forall m v, store m 0 v = None) ->
  encodepolar_ssse3 load store frame temp mask frozen info frame_size = None.
Proof.
  intros H. unfold encodepolar_ssse3.
  destruct (ssse3_coarse _ _ _ _ _ _ _ _) as [c|] eqn:Hc; [|reflexivity].
  rewrite bind_some.
  destruct (ssse3_coarse_result _ _ _ _ _ _ _ Hc) as [Hnb Hl].
  unfold fine_init. cbv zeta.
  destruct H as [H | H].
  - rewrite (H _ Hl). reflexivity.
  - destruct (load (co_temp c) 0) as [r|]; [|reflexivity].
    rewrite !bind_some.
    destruct (co_num_branches c) as [|nb]; [lia|].
    rewrite for_loop_first_fault; [reflexivity|].
    rewrite fine_chunk_regs. cbn [fi_frame fi_frame_ptr fi_temp_ptr fi_r_temp0].
    destruct (load (co_temp c) (0 + 16)); [|reflexivity].
    rewrite bind_some, H. reflexivity.
Qed.
End ssse3_shape.

(** X11: Whatever the frame size and the other inputs, the SSSE3 encoders fault
    on a [temp] of fewer than 16 bytes: their last loop loads a whole
    16-byte chunk.  With buffers of [frame_size] bytes this is every frame
    size below 16. *)
Theorem ssse3_short_temp_faults
    (frame temp mask frozen info : list Z) (n frame_addr temp_addr : nat) :
  length temp < 16 ->
  volk_8u_x3_encodepolar_8u_x2_u_ssse3 frame temp mask frozen info n = None /\
  volk_8u_x3_encodepolar_8u_x2_a_ssse3 frame_addr temp_addr
    frame temp mask frozen info n = None.
Proof.
  intros Hlen. split.
  - apply ssse3_needs_first_chunk. left. intros t Ht.
    unfold _mm_loadu_si128. rewrite decide_False by lia. reflexivity.
  - apply ssse3_needs_first_chunk. left. intros t Ht.
    unfold _mm_load_si128, _mm_loadu_si128.
    rewrite (decide_False (P := 0 + 16 <= length t)) by lia.
    destruct (decide _); reflexivity.
Qed.

Lemma ssse3_short_temp_faults_witness :
  volk_8u_x3_encodepolar_8u_x2_u_ssse3 (replicate 8 0%Z) (replicate 8 0%Z)
    (replicate 8 0%Z) [] (replicate 8 1%Z) 8 = None /\
  volk_8u_x3_encodepolar_8u_x2_a_ssse3 1024 2048 (replicate 8 0%Z)
    (replicate 8 0%Z) (replicate 8 0%Z) [] (replicate 8 1%Z) 8 = None.
Proof. apply ssse3_short_temp_faults. simpl. lia. Defined.

(** X12: The aligned encoder faults, whatever its inputs, when the address of
    [frame] or of [temp] is not a multiple of 16. *)
Theorem a_ssse3_misaligned_faults
    (frame temp mask frozen info : list Z) (n frame_addr temp_addr : nat) :
  frame_addr mod 16 <> 0 \/ temp_addr mod 16 <> 0 ->
  volk_8u_x3_encodepolar_8u_x2_a_ssse3 frame_addr temp_addr
    frame temp mask frozen info n = None.
Proof.
  intros H. apply ssse3_needs_first_chunk. destruct H as [H | H].
  - right. intros m v. unfold _mm_store_si128.
    rewrite decide_False; [reflexivity|]. rewrite Nat.add_0_r. exact H.
  - left. intros t _. unfold _mm_load_si128.
    rewrite decide_False; [reflexivity|]. rewrite Nat.add_0_r. exact H.
Qed.

Lemma a_ssse3_misaligned_faults_witness :
  volk_8u_x3_encodepolar_8u_x2_a_ssse3 1024 2056 (replicate 16 0%Z)
    (replicate 16 0%Z) (replicate 16 0%Z) [] (replicate 16 1%Z) 16 = None.
Proof.
  apply a_ssse3_misaligned_faults. right. vm_compute. discriminate.
Defined.

Section ssse3_spare.
Variable load : list Z -> nat -> option vec.
Variable store : list Z -> nat -> vec -> option (list Z).
Hypothesis load_ok : forall m p,
  p mod 16 = 0 -> p + 16 <= length m -> load m p = Some (take 16 (drop p m)).
Hypothesis store_ok : forall m p v,
  p mod 16 = 0 -> p + 16 <= length m ->
  store m p v = Some (take p m ++ v ++ drop (p + 16) m).

(** With 16 spare bytes in [temp] every load of the encoder is inside the
    buffer: it returns the codeword of the interleaved cells [t], and
    [temp] with those cells as they were four passes before the end. *)
Lemma ssse3_encodes_spare n frame temp mask frozen info :
  n + 4 < 32 -> valid_input_ssse3 (2 ^ (n + 4)) frame temp mask frozen info ->
  Forall is_byte frozen -> Forall is_byte info ->
  exists t,
    length t = 2 ^ (n + 4) /\ Forall is_byte t /\
    (forall k, k < 2 ^ (n + 4) ->
       t !! k = interleaved_at mask frozen info k /\ is_Some (t !! k)) /\
    interleave_frozen_and_info_bits temp mask frozen info (2 ^ (n + 4))
    = Some (t ++ drop (2 ^ (n + 4)) temp) /\
    encodepolar_ssse3 load store frame temp mask frozen info (2 ^ (n + 4))
    = Some (passes (n + 4) (2 ^ (n + 4) / 2) t,
            passes n (2 ^ (n + 4) / 2) t ++ drop (2 ^ (n + 4)) temp).
Proof.
  intros Hn [Hfr Htm Hm Hcf Hci] Hfz Hin.
  destruct (interleave_prefix (2 ^ (n + 4)) temp mask frozen info)
    as (t & Hil & Hlen & Hat); [lia | assumption ..|].
  assert (Hb : Forall is_byte t) by (eapply interleaved_in; eauto).
  exists t. split; [exact Hlen|]. split; [exact Hb|]. split; [exact Hat|].
  split; [exact Hil|].
  apply (ssse3_encodes load store load_ok store_ok n frame temp mask frozen info
           t (drop (2 ^ (n + 4)) temp)
           (take 16 (drop (2 ^ (n + 4))
                       (passes n (2 ^ (n + 4) / 2) t
                        ++ drop (2 ^ (n + 4)) temp))));
    try assumption.
  apply load_ok.
  - rewrite pow2_16. apply Nat.Div0.mod_mul.
  - rewrite length_app, passes_length, length_drop. lia.
Qed.
End ssse3_spare.

(** X13: With 16 spare bytes in [temp], either SSSE3 encoder, on buffers of
    its own, returns the codeword in [frame] and leaves [temp] four passes
    behind it: the last loop writes [frame] only, so the first N cells of
    [temp] are the cells [T] as they were four passes before the end (for
    a frame of 16 cells, the interleaved cells), and the last four passes
    of the scalar loop, run on [T], give the codeword.  The bytes of
    [temp] after the first N are not changed. *)
Theorem ssse3_temp_is_four_passes_behind
    (k : nat) (mask frozen info frame_u temp_u frame_a temp_a : list Z)
    (frame_addr temp_addr : nat) :
  4 <= k < 32 ->
  valid_input_ssse3 (2 ^ k) frame_u temp_u mask frozen info ->
  valid_input_ssse3 (2 ^ k) frame_a temp_a mask frozen info ->
  Forall is_byte frozen -> Forall is_byte info ->
  frame_addr mod 16 = 0 -> temp_addr mod 16 = 0 ->
  exists code T,
    volk_8u_x3_encodepolar_8u_x2_u_ssse3 frame_u temp_u mask frozen info (2 ^ k)
    = Some (code, T ++ drop (2 ^ k) temp_u) /\
    volk_8u_x3_encodepolar_8u_x2_a_ssse3 frame_addr temp_addr
      frame_a temp_a mask frozen info (2 ^ k)
    = Some (code, T ++ drop (2 ^ k) temp_a) /\
    length code = 2 ^ k /\
    length T = 2 ^ k /\
    (forall scratch, length scratch = 2 ^ k ->
       generic_loop 4 scratch T (2 ^ k) (2 ^ (k - 4)) 8 = Some (code, code)) /\
    (k = 4 ->
     interleave_frozen_and_info_bits temp_u mask frozen info (2 ^ k)
     = Some (T ++ drop (2 ^ k) temp_u)).
Proof.
  intros Hk Vu Va Hfz Hin Hfa Hta.
  replace k with (k - 4 + 4) in * by lia. set (n := k - 4) in *.
  destruct (ssse3_encodes_spare _mm_loadu_si128 _mm_storeu_si128 loadu_ok
              storeu_ok n frame_u temp_u mask frozen info)
    as (t & Hlen & Hb & Hat & Hil & Hu); [lia | assumption ..|].
  destruct (ssse3_encodes_spare (_mm_load_si128 temp_addr)
              (_mm_store_si128 frame_addr)
              (fun m p => load_ok_aligned temp_addr m p Hta)
              (fun m p v => store_ok_aligned frame_addr m p v Hfa)
              n frame_a temp_a mask frozen info)
    as (ta & Hlena & _ & Hata & _ & Ha); [lia | assumption ..|].
  assert (ta = t) as -> by (eapply interleaved_unique; eauto).
  set (T := passes n (2 ^ (n + 4) / 2) t) in *.
  assert (LT : length T = 2 ^ (n + 4))
    by (unfold T; rewrite passes_length; exact Hlen).
  exists (passes (n + 4) (2 ^ (n + 4) / 2) t), T.
  split; [exact Hu|]. split; [exact Ha|].
  split; [rewrite passes_length; exact Hlen|].
  split; [exact LT|]. split.
  - intros scratch Hs. replace (n + 4 - 4) with n by lia.
    rewrite passes_split. fold T. rewrite <- LT.
    change 8 with (2 ^ 4 / 2).
    apply (generic_loop_passes 4 scratch T (2 ^ n)); [congruence|].
    rewrite LT. apply pow2_16.
  - intros E. assert (n = 0) as -> by lia. exact Hil.
Qed.

Lemma ssse3_temp_is_four_passes_behind_witness :
  exists code T,
    volk_8u_x3_encodepolar_8u_x2_u_ssse3 (replicate 16 7%Z) (replicate 32 9%Z)
      [255; 255; 255; 0; 255; 0; 0; 0; 255; 255; 0; 0; 255; 0; 0; 0]%Z
      [0; 1; 0; 0; 1; 0; 0]%Z [1; 0; 1; 1; 0; 1; 1; 1; 0]%Z (2 ^ 4)
    = Some (code, T ++ drop (2 ^ 4) (replicate 32 9%Z)) /\
    volk_8u_x3_encodepolar_8u_x2_a_ssse3 1024 2048
      (replicate 16 5%Z) (replicate 48 6%Z)
      [255; 255; 255; 0; 255; 0; 0; 0; 255; 255; 0; 0; 255; 0; 0; 0]%Z
      [0; 1; 0; 0; 1; 0; 0]%Z [1; 0; 1; 1; 0; 1; 1; 1; 0]%Z (2 ^ 4)
    = Some (code, T ++ drop (2 ^ 4) (replicate 48 6%Z)) /\
    length code = 2 ^ 4 /\
    length T = 2 ^ 4 /\
    (forall scratch, length scratch = 2 ^ 4 ->
       generic_loop 4 scratch T (2 ^ 4) (2 ^ (4 - 4)) 8 = Some (code, code)) /\
    (4 = 4 ->
     interleave_frozen_and_info_bits (replicate 32 9%Z)
       [255; 255; 255; 0; 255; 0; 0; 0; 255; 255; 0; 0; 255; 0; 0; 0]%Z
       [0; 1; 0; 0; 1; 0; 0]%Z [1; 0; 1; 1; 0; 1; 1; 1; 0]%Z (2 ^ 4)
     = Some (T ++ drop (2 ^ 4) (replicate 32 9%Z))).
Proof.
  apply (ssse3_temp_is_four_passes_behind 4);
    [lia | constructor; simpl; lia | constructor; simpl; lia
     | apply bits_bytes; all_bits | apply bits_bytes; all_bits
     | reflexivity | reflexivity].
Defined.

(** X19: With 16 spare bytes in the [temp] of the SSSE3 encoders, the three
    encoders, each called on buffers of its own, leave the same N bytes in
    their frames, whatever the buffers held before. *)
Theorem encoders_agree_given_spare_temp
    (k : nat) (mask frozen info frame_g temp_g frame_u temp_u frame_a temp_a
     : list Z) (frame_addr temp_addr : nat) :
  4 <= k < 32 ->
  valid_input (2 ^ k) frame_g temp_g mask frozen info ->
  valid_input_ssse3 (2 ^ k) frame_u temp_u mask frozen info ->
  valid_input_ssse3 (2 ^ k) frame_a temp_a mask frozen info ->
  Forall is_byte frozen -> Forall is_byte info ->
  frame_addr mod 16 = 0 -> temp_addr mod 16 = 0 ->
  exists code temp_g' temp_u' temp_a',
    volk_8u_x3_encodepolar_8u_x2_generic frame_g temp_g mask frozen info (2 ^ k)
    = Some (code, temp_g') /\
    volk_8u_x3_encodepolar_8u_x2_u_ssse3 frame_u temp_u mask frozen info (2 ^ k)
    = Some (code, temp_u') /\
    volk_8u_x3_encodepolar_8u_x2_a_ssse3 frame_addr temp_addr
      frame_a temp_a mask frozen info (2 ^ k)
    = Some (code, temp_a') /\
    length code = 2 ^ k.
Proof.
  intros Hk Vg Vu Va Hfz Hin Hfa Hta.
  replace k with (k - 4 + 4) in * by lia. set (n := k - 4) in *.
  destruct (generic_encodes (n + 4) frame_g temp_g mask frozen info)
    as (t & _ & Hlen & Hat & Hg); [lia | exact Vg |].
  rewrite match_pos in Hg by lia.
  destruct (ssse3_encodes_spare _mm_loadu_si128 _mm_storeu_si128 loadu_ok
              storeu_ok n frame_u temp_u mask frozen info)
    as (tu & Hlenu & _ & Hatu & _ & Hu); [lia | assumption ..|].
  destruct (ssse3_encodes_spare (_mm_load_si128 temp_addr)
              (_mm_store_si128 frame_addr)
              (fun m p => load_ok_aligned temp_addr m p Hta)
              (fun m p v => store_ok_aligned frame_addr m p v Hfa)
              n frame_a temp_a mask frozen info)
    as (ta & Hlena & _ & Hata & _ & Ha); [lia | assumption ..|].
  assert (tu = t) as -> by (eapply interleaved_unique; eauto).
  assert (ta = t) as -> by (eapply interleaved_unique; eauto).
  eexists _, _, _, _. split; [exact Hg|]. split; [exact Hu|].
  split; [exact Ha|]. rewrite passes_length. exact Hlen.
Qed.

Lemma encoders_agree_given_spare_temp_witness :
  exists code temp_g' temp_u' temp_a',
    volk_8u_x3_encodepolar_8u_x2_generic (replicate 32 7%Z) (replicate 32 9%Z)
      [255; 255; 255; 0; 255; 0; 0; 0; 255; 255; 0; 0; 255; 0; 0; 0;
       255; 0; 255; 0; 0; 0; 0; 0; 255; 0; 0; 0; 0; 0; 0; 0]%Z
      [0; 1; 0; 0; 1; 0; 0; 1; 0; 0]%Z
      [1; 0; 1; 1; 0; 1; 1; 1; 0; 0; 1; 0; 1; 1; 0; 1; 0; 0; 1; 1; 1; 0]%Z
      (2 ^ 5) = Some (code, temp_g') /\
    volk_8u_x3_encodepolar_8u_x2_u_ssse3 (replicate 32 5%Z) (replicate 48 6%Z)
      [255; 255; 255; 0; 255; 0; 0; 0; 255; 255; 0; 0; 255; 0; 0; 0;
       255; 0; 255; 0; 0; 0; 0; 0; 255; 0; 0; 0; 0; 0; 0; 0]%Z
      [0; 1; 0; 0; 1; 0; 0; 1; 0; 0]%Z
      [1; 0; 1; 1; 0; 1; 1; 1; 0; 0; 1; 0; 1; 1; 0; 1; 0; 0; 1; 1; 1; 0]%Z
      (2 ^ 5) = Some (code, temp_u') /\
    volk_8u_x3_encodepolar_8u_x2_a_ssse3 1024 2048
      (replicate 32 3%Z) (replicate 64 4%Z)
      [255; 255; 255; 0; 255; 0; 0; 0; 255; 255; 0; 0; 255; 0; 0; 0;
       255; 0; 255; 0; 0; 0; 0; 0; 255; 0; 0; 0; 0; 0; 0; 0]%Z
      [0; 1; 0; 0; 1; 0; 0; 1; 0; 0]%Z
      [1; 0; 1; 1; 0; 1; 1; 1; 0; 0; 1; 0; 1; 1; 0; 1; 0; 0; 1; 1; 1; 0]%Z
      (2 ^ 5) = Some (code, temp_a') /\
    length code = 2 ^ 5.
Proof.
  apply (encoders_agree_given_spare_temp 5);
    [lia | constructor; reflexivity | constructor; simpl; lia
     | constructor; simpl; lia | apply bits_bytes; all_bits
     | apply bits_bytes; all_bits | reflexivity | reflexivity].
Defined.

(** ** The transform is its own inverse *)

Lemma inter_length e o : length e = length o -> length (inter e o) = 2 * length e.
Proof.
  revert o. induction e as [|x e IH]; intros [|y o] H; try discriminate.
  - reflexivity.
  - simpl in *. rewrite IH by lia. lia.
Qed.

Lemma inter_lookup e o i :
  length e = length o ->
  inter e o !! (2 * i) = e !! i /\ inter e o !! (2 * i + 1) = o !! i.
Proof.
  revert o i. induction e as [|x e IH]; intros [|y o] i H; try discriminate.
  - split; reflexivity.
  - destruct i as [|i].
    + split; reflexivity.
    + replace (2 * S i) with (S (S (2 * i))) by lia. simpl.
      apply IH. simpl in H. lia.
Qed.

Lemma inter_nth e o i :
  length e = length o ->
  nth (2 * i) (inter e o) 0%Z = nth i e 0%Z /\
  nth (2 * i + 1) (inter e o) 0%Z = nth i o 0%Z.
Proof.
  intros H. rewrite !nth_lookup.
  destruct (inter_lookup e o i H) as [-> ->]. split; reflexivity.
Qed.

Lemma inter_app e1 o1 e2 o2 :
  length e1 = length o1 ->
  inter (e1 ++ e2) (o1 ++ o2) = inter e1 o1 ++ inter e2 o2.
Proof.
  revert o1. induction e1 as [|x e1 IH]; intros [|y o1] H; try discriminate.
  - reflexivity.
  - simpl in *. rewrite IH by lia. reflexivity.
Qed.

(** A list of even length alternates two lists of half its length. *)
Lemma inter_decompose (l : list Z) h :
  length l = 2 * h ->
  exists e o, l = inter e o /\ length e = h /\ length o = h.
Proof.
  revert l. induction h as [|h IH]; intros l H.
  - destruct l; [|discriminate]. exists [], []. repeat split.
  - destruct l as [|x [|y l]]; try (simpl in H; lia).
    destruct (IH l) as (e & o & -> & He & Ho); [simpl in H; lia|].
    exists (x :: e), (y :: o). simpl. repeat split; lia.
Qed.

Lemma zip_lxor_inter e1 o1 e2 o2 :
  zip_with Z.lxor (inter e1 o1) (inter e2 o2)
  = inter (zip_with Z.lxor e1 e2) (zip_with Z.lxor o1 o2).
Proof.
  revert o1 e2 o2.
  induction e1 as [|x e1 IH]; intros [|y o1] [|x' e2] [|y' o2];
    try reflexivity.
  simpl. rewrite IH. reflexivity.
Qed.

Lemma zip_lxor_swap (a b c d : list Z) :
  zip_with Z.lxor (zip_with Z.lxor a b) (zip_with Z.lxor c d)
  = zip_with Z.lxor (zip_with Z.lxor a c) (zip_with Z.lxor b d).
Proof.
  revert b c d. induction a as [|x a IH]; intros [|y b] [|z c] [|w d];
    try reflexivity.
  simpl. rewrite IH, lxor_swap. reflexivity.
Qed.

Lemma zip_lxor_cancel (a b : list Z) :
  length a = length b ->
  zip_with Z.lxor (zip_with Z.lxor a b) b = a.
Proof.
  revert b. induction a as [|x a IH]; intros [|y b] H; try discriminate.
  - reflexivity.
  - simpl in *. rewrite IH by lia. f_equal. lane_eq.
Qed.

Lemma pass_at_branch0_lo h (t : list Z) j :
  j < h ->
  pass_at h t j = Z.lxor (nth (2 * j) t 0%Z) (nth (2 * j + 1) t 0%Z).
Proof. intros H. exact (pass_at_lo h t 0 j H). Qed.

Lemma pass_at_branch0_hi h (t : list Z) j :
  j < h -> pass_at h t (h + j) = nth (2 * j + 1) t 0%Z.
Proof. intros H. exact (pass_at_hi h t 0 j H). Qed.

(** One pass over a single branch: the exclusive ors of the pairs, then
    their second cells. *)
Lemma pass_inter h e o :
  0 < h -> length e = h -> length o = h ->
  pass h (inter e o) = zip_with Z.lxor e o ++ o.
Proof.
  intros Hh He Ho. apply list_eq. intros i.
  assert (Li : length (inter e o) = 2 * h) by (rewrite inter_length; lia).
  assert (Lz : length (zip_with Z.lxor e o) = h)
    by (rewrite length_zip_with; lia).
  destruct (decide (i < 2 * h)) as [Hi|Hi].
  - rewrite pass_lookup by lia.
    destruct (decide (i < h)) as [Hlo|Hhi].
    + rewrite lookup_app_l by lia. rewrite lookup_zip_with.
      rewrite pass_at_branch0_lo by exact Hlo.
      destruct (inter_nth e o i ltac:(lia)) as [-> ->].
      destruct (lookup_lt_is_Some_2 e i ltac:(lia)) as [x Hx].
      destruct (lookup_lt_is_Some_2 o i ltac:(lia)) as [y Hy].
      rewrite Hx, Hy, (nth_lookup_Some _ _ _ _ Hx), (nth_lookup_Some _ _ _ _ Hy).
      reflexivity.
    + rewrite lookup_app_r by lia. rewrite Lz.
      replace i with (h + (i - h)) at 1 by lia.
      rewrite pass_at_branch0_hi by lia.
      destruct (inter_nth e o (i - h) ltac:(lia)) as [_ ->].
      destruct (lookup_lt_is_Some_2 o (i - h) ltac:(lia)) as [y Hy].
      rewrite Hy, (nth_lookup_Some _ _ _ _ Hy). reflexivity.
  - rewrite !lookup_ge_None_2;
      [reflexivity | rewrite length_app; lia | rewrite pass_length; lia].
Qed.

(** A pass works on the two halves of a buffer separately when its branch
    width divides their length. *)
Lemma pass_app h q (a b : list Z) :
  0 < h -> length a = q * (2 * h) -> length b = q * (2 * h) ->
  pass h (a ++ b) = pass h a ++ pass h b.
Proof.
  intros Hh Ha Hb. set (L := q * (2 * h)) in *.
  assert (Hd : L mod (2 * h) = 0) by apply Nat.Div0.mod_mul.
  pose proof (pass_block h L 0 (a ++ b) Hh Hd) as H0.
  pose proof (pass_block h L 1 (a ++ b) Hh Hd) as H1.
  rewrite Nat.mul_0_r in H0. rewrite Nat.mul_1_r in H1.
  rewrite length_app in H0, H1.
  specialize (H0 ltac:(lia)). specialize (H1 ltac:(lia)).
  rewrite !drop_0 in H0. rewrite take_app_length' in H0 by lia.
  rewrite drop_app_length' in H1 by lia.
  rewrite (firstn_all2 b) in H1 by lia.
  rewrite H0, H1.
  rewrite (firstn_all2 (drop L _))
    by (rewrite length_drop, pass_length, length_app; lia).
  symmetry. apply take_drop.
Qed.

Lemma passes_app m q (a b : list Z) :
  length a = q * 2 ^ m -> length b = q * 2 ^ m ->
  passes m (2 ^ m / 2) (a ++ b)
  = passes m (2 ^ m / 2) a ++ passes m (2 ^ m / 2) b.
Proof.
  revert q a b. induction m as [|m IH]; intros q a b Ha Hb.
  - reflexivity.
  - cbn [passes]. rewrite pow2_half, shiftr1.
    rewrite Nat.pow_succ_r' in Ha, Hb.
    rewrite (pass_app (2 ^ m) q) by (try apply pow2_pos; lia).
    apply (IH (2 * q)); rewrite pass_length; lia.
Qed.

(** The transform of [2^(n+1)] cells, from the transform of [2^n] cells:
    on alternating lists, and on concatenated ones. *)
Lemma passes_inter n e o :
  length e = 2 ^ n -> length o = 2 ^ n ->
  passes (S n) (2 ^ S n / 2) (inter e o)
  = passes n (2 ^ n / 2) (zip_with Z.lxor e o) ++ passes n (2 ^ n / 2) o.
Proof.
  intros He Ho. cbn [passes]. rewrite pow2_half, shiftr1.
  rewrite pass_inter by (try apply pow2_pos; assumption).
  apply (passes_app n 1); rewrite ?length_zip_with; lia.
Qed.

Lemma passes_concat m (a b : list Z) :
  length a = 2 ^ m -> length b = 2 ^ m ->
  passes (S m) (2 ^ S m / 2) (a ++ b)
  = inter (passes m (2 ^ m / 2) (zip_with Z.lxor a b)) (passes m (2 ^ m / 2) b).
Proof.
  revert a b. induction m as [|m IH]; intros a b Ha Hb.
  - destruct a as [|x [|? ?]]; try discriminate.
    destruct b as [|y [|? ?]]; try discriminate. reflexivity.
  - rewrite Nat.pow_succ_r' in Ha, Hb.
    destruct (inter_decompose a (2 ^ m) Ha) as (ea & oa & -> & Hea & Hoa).
    destruct (inter_decompose b (2 ^ m) Hb) as (eb & ob & -> & Heb & Hob).
    rewrite <- inter_app by lia.
    rewrite passes_inter by (rewrite length_app, Nat.pow_succ_r'; lia).
    rewrite zip_lxor_inter.
    rewrite (passes_inter m) by (rewrite length_zip_with; lia).
    rewrite (passes_inter m eb ob) by lia.
    rewrite inter_app by (rewrite !passes_length, !length_zip_with; lia).
    rewrite zip_with_app by lia.
    rewrite !IH by (rewrite ?length_zip_with; lia).
    rewrite (zip_lxor_swap ea oa eb ob). reflexivity.
Qed.

(** Applied twice, the transform gives back its input. *)
Lemma passes_involutive n (x : list Z) :
  length x = 2 ^ n ->
  passes n (2 ^ n / 2) (passes n (2 ^ n / 2) x) = x.
Proof.
  revert x. induction n as [|n IH]; intros x Hx.
  - reflexivity.
  - rewrite Nat.pow_succ_r' in Hx.
    destruct (inter_decompose x (2 ^ n) Hx) as (e & o & -> & He & Ho).
    rewrite passes_inter by assumption.
    rewrite passes_concat by (rewrite passes_length, ?length_zip_with; lia).
    rewrite <- passes_lxor by (rewrite length_zip_with; lia).
    rewrite zip_lxor_cancel by lia.
    rewrite !IH by assumption. reflexivity.
Qed.

Lemma count_frozen_replicate n : count_frozen (replicate n 0%Z) = 0.
Proof. induction n as [|n IH]; simpl; [reflexivity | exact IH]. Qed.

Lemma valid_input_count_info n frame temp mask frozen info :
  valid_input n frame temp mask frozen info -> count_info mask = length info.
Proof.
  intros [_ _ Hm Hf Hi]. pose proof (count_frozen_info mask). lia.
Qed.

(** The scalar encoder on an all-information mask: [passes] of the
    information vector. *)
Lemma generic_all_info k frame temp info :
  1 <= k < 32 ->
  length frame = 2 ^ k -> length temp = 2 ^ k -> length info = 2 ^ k ->
  volk_8u_x3_encodepolar_8u_x2_generic frame temp (replicate (2 ^ k) 0%Z) []
    info (2 ^ k)
  = Some (passes k (2 ^ k / 2) info, passes k (2 ^ k / 2) info).
Proof.
  intros Hk Hf Ht Hi.
  assert (V : valid_input (2 ^ k) frame temp (replicate (2 ^ k) 0%Z) [] info).
  { constructor; try assumption.
    - apply length_replicate.
    - apply count_frozen_replicate.
    - rewrite count_frozen_replicate. lia. }
  destruct (generic_encodes k _ _ _ _ _ ltac:(lia) V) as (t & _ & Lt & At & R).
  assert (t = info) as ->.
  { apply (interleaved_all_info (2 ^ k) t (replicate (2 ^ k) 0%Z) info);
      auto using length_replicate, count_frozen_replicate. }
  rewrite R, match_pos by lia. reflexivity.
Qed.

Lemma generic_reencodes
    (k : nat) (frame temp mask frozen info frame2 temp2 : list Z) :
  1 <= k < 32 ->
  valid_input (2 ^ k) frame temp mask frozen info ->
  length frame2 = 2 ^ k -> length temp2 = 2 ^ k ->
  exists code temp' u,
    volk_8u_x3_encodepolar_8u_x2_generic frame temp mask frozen info (2 ^ k)
    = Some (code, temp') /\
    interleave_frozen_and_info_bits temp mask frozen info (2 ^ k) = Some u /\
    volk_8u_x3_encodepolar_8u_x2_generic frame2 temp2 (replicate (2 ^ k) 0%Z)
      [] code (2 ^ k) = Some (u, u) /\
    select_frozen mask u = frozen /\ select_info mask u = info.
Proof.
  intros Hk V Hf2 Ht2.
  destruct (generic_encodes k _ _ _ _ _ ltac:(lia) V) as (u & Hil & Lu & _ & R).
  rewrite match_pos in R by lia.
  exists (passes k (2 ^ k / 2) u), (passes k (2 ^ k / 2) u), u.
  split; [exact R|]. split; [exact Hil|]. split.
  - rewrite generic_all_info by (rewrite ?passes_length; assumption).
    rewrite passes_involutive by exact Lu. reflexivity.
  - apply (interleave_selects temp mask frozen info u (2 ^ k));
      [destruct V; assumption | destruct V; assumption
       | exact (valid_input_count_info _ _ _ _ _ _ V) | exact Hil].
Qed.

(** X14: Decoding by encoding again.  For a power-of-two frame of at least two
    cells, the codeword, encoded once more as a pure information vector
    (all-zero mask), gives back the interleaved buffer, from which the mask
    selects the frozen values and the information values that went in. *)
Theorem generic_reencoding_recovers_input
    (k : nat) (frame temp mask frozen info frame2 temp2 : list Z) :
  1 <= k < 32 ->
  valid_input (2 ^ k) frame temp mask frozen info ->
  length frame2 = 2 ^ k -> length temp2 = 2 ^ k ->
  exists code temp' u,
    volk_8u_x3_encodepolar_8u_x2_generic frame temp mask frozen info (2 ^ k)
    = Some (code, temp') /\
    interleave_frozen_and_info_bits temp mask frozen info (2 ^ k) = Some u /\
    volk_8u_x3_encodepolar_8u_x2_generic frame2 temp2 (replicate (2 ^ k) 0%Z)
      [] code (2 ^ k) = Some (u, u) /\
    select_frozen mask u = frozen /\ select_info mask u = info.
Proof. apply generic_reencodes. Qed.

Lemma generic_reencoding_recovers_input_witness :
  exists code temp' u,
    volk_8u_x3_encodepolar_8u_x2_generic [7; 7; 7; 7]%Z [9; 9; 9; 9]%Z
      [255; 0; 0; 255]%Z [0; 1]%Z [1; 1]%Z (2 ^ 2) = Some (code, temp') /\
    interleave_frozen_and_info_bits [9; 9; 9; 9]%Z [255; 0; 0; 255]%Z
      [0; 1]%Z [1; 1]%Z (2 ^ 2) = Some u /\
    volk_8u_x3_encodepolar_8u_x2_generic [5; 5; 5; 5]%Z [6; 6; 6; 6]%Z
      (replicate (2 ^ 2) 0%Z) [] code (2 ^ 2) = Some (u, u) /\
    select_frozen [255; 0; 0; 255]%Z u = [0; 1]%Z /\
    select_info [255; 0; 0; 255]%Z u = [1; 1]%Z.
Proof.
  apply (generic_reencoding_recovers_input 2);
    [lia | constructor; reflexivity | reflexivity | reflexivity].
Defined.

(** X15: The encoder loses nothing: under one mask, two valid inputs with the
    same codeword have the same frozen values and the same information
    values. *)
Theorem generic_injective
    (k : nat) (mask frame1 temp1 frozen1 info1 frame2 temp2 frozen2 info2
     code t1 t2 : list Z) :
  1 <= k < 32 ->
  valid_input (2 ^ k) frame1 temp1 mask frozen1 info1 ->
  valid_input (2 ^ k) frame2 temp2 mask frozen2 info2 ->
  volk_8u_x3_encodepolar_8u_x2_generic frame1 temp1 mask frozen1 info1 (2 ^ k)
  = Some (code, t1) ->
  volk_8u_x3_encodepolar_8u_x2_generic frame2 temp2 mask frozen2 info2 (2 ^ k)
  = Some (code, t2) ->
  frozen1 = frozen2 /\ info1 = info2.
Proof.
  intros Hk V1 V2 R1 R2.
  destruct (generic_reencodes k frame1 temp1 mask frozen1 info1
              frame1 temp1 Hk V1) as (c1 & ? & u1 & E1 & _ & D1 & <- & <-);
    [destruct V1; assumption ..|].
  destruct (generic_reencodes k frame2 temp2 mask frozen2 info2
              frame1 temp1 Hk V2) as (c2 & ? & u2 & E2 & _ & D2 & <- & <-);
    [destruct V1; assumption ..|].
  assert (c1 = code) by congruence. assert (c2 = code) by congruence.
  subst c1 c2. assert (u1 = u2) by congruence. subst u2.
  split; reflexivity.
Qed.

Lemma generic_injective_witness :
  [0; 1]%Z = [0; 1]%Z /\ [1; 1]%Z = [1; 1]%Z.
Proof.
  apply (generic_injective 2 [255; 0; 0; 255]%Z
           [7; 7; 7; 7]%Z [9; 9; 9; 9]%Z [0; 1]%Z [1; 1]%Z
           [5; 5; 5; 5]%Z [6; 6; 6; 6]%Z [0; 1]%Z [1; 1]%Z
           [1; 0; 0; 1]%Z [1; 0; 0; 1]%Z [1; 0; 0; 1]%Z);
    [lia | constructor; reflexivity | constructor; reflexivity
     | reflexivity | reflexivity].
Defined.

(** X16: The SSSE3 encoder undoes itself as well: for a frame of at least 16
    cells and buffers [temp] with 16 spare bytes, its codeword, encoded
    once more by it as a pure information vector (all-zero mask), gives
    back the interleaved cells. *)
Theorem u_ssse3_reencoding_recovers_buffer
    (k : nat) (frame temp mask frozen info frame2 temp2 : list Z) :
  4 <= k < 32 ->
  valid_input_ssse3 (2 ^ k) frame temp mask frozen info ->
  Forall is_byte frozen -> Forall is_byte info ->
  length frame2 = 2 ^ k -> 2 ^ k + 16 <= length temp2 ->
  exists code temp' u temp'',
    volk_8u_x3_encodepolar_8u_x2_u_ssse3 frame temp mask frozen info (2 ^ k)
    = Some (code, temp') /\
    interleave_frozen_and_info_bits temp mask frozen info (2 ^ k)
    = Some (u ++ drop (2 ^ k) temp) /\
    length u = 2 ^ k /\
    volk_8u_x3_encodepolar_8u_x2_u_ssse3 frame2 temp2 (replicate (2 ^ k) 0%Z)
      [] code (2 ^ k) = Some (u, temp'').
Proof.
  intros Hk V Hfz Hin Hf2 Ht2.
  replace k with (k - 4 + 4) in * by lia. set (n := k - 4) in *.
  destruct (ssse3_encodes_spare _mm_loadu_si128 _mm_storeu_si128 loadu_ok
              storeu_ok n frame temp mask frozen info)
    as (u & Lu & Bu & _ & Hil & Hu); [lia | assumption ..|].
  set (code := passes (n + 4) (2 ^ (n + 4) / 2) u) in *.
  assert (Lc : length code = 2 ^ (n + 4))
    by (unfold code; rewrite passes_length; exact Lu).
  assert (Bc : Forall is_byte code).
  { apply passes_in; [unfold is_byte; lia | apply is_byte_lxor | exact Bu]. }
  assert (V2 : valid_input_ssse3 (2 ^ (n + 4)) frame2 temp2
                 (replicate (2 ^ (n + 4)) 0%Z) [] code).
  { constructor; try assumption.
    - apply length_replicate.
    - apply count_frozen_replicate.
    - rewrite count_frozen_replicate. lia. }
  destruct (ssse3_encodes_spare _mm_loadu_si128 _mm_storeu_si128 loadu_ok
              storeu_ok n frame2 temp2 (replicate (2 ^ (n + 4)) 0%Z) [] code)
    as (t2 & L2 & _ & A2 & _ & Hu2); [lia | exact V2 | constructor | exact Bc |].
  assert (t2 = code) as ->.
  { apply (interleaved_all_info (2 ^ (n + 4)) t2 (replicate (2 ^ (n + 4)) 0%Z));
      auto using length_replicate, count_frozen_replicate. }
  unfold code in Hu2 at 2. rewrite passes_involutive in Hu2 by exact Lu.
  eexists _, _, u, _. split; [exact Hu|]. split; [exact Hil|].
  split; [exact Lu | exact Hu2].
Qed.

Lemma u_ssse3_reencoding_recovers_buffer_witness :
  exists code temp' u temp'',
    volk_8u_x3_encodepolar_8u_x2_u_ssse3 (replicate 16 7%Z) (replicate 32 9%Z)
      [255; 255; 255; 0; 255; 0; 0; 0; 255; 255; 0; 0; 255; 0; 0; 0]%Z
      [0; 1; 0; 0; 1; 0; 0]%Z [1; 0; 1; 1; 0; 1; 1; 1; 0]%Z (2 ^ 4)
    = Some (code, temp') /\
    interleave_frozen_and_info_bits (replicate 32 9%Z)
      [255; 255; 255; 0; 255; 0; 0; 0; 255; 255; 0; 0; 255; 0; 0; 0]%Z
      [0; 1; 0; 0; 1; 0; 0]%Z [1; 0; 1; 1; 0; 1; 1; 1; 0]%Z (2 ^ 4)
    = Some (u ++ drop (2 ^ 4) (replicate 32 9%Z)) /\
    length u = 2 ^ 4 /\
    volk_8u_x3_encodepolar_8u_x2_u_ssse3 (replicate 16 5%Z) (replicate 32 6%Z)
      (replicate (2 ^ 4) 0%Z) [] code (2 ^ 4) = Some (u, temp'').
Proof.
  apply (u_ssse3_reencoding_recovers_buffer 4);
    [lia | constructor; simpl; lia | apply bits_bytes; all_bits
     | apply bits_bytes; all_bits | reflexivity | simpl; lia].
Defined.

(** ** [print_vector_elements] *)

Lemma print_cell_step buf p i out :
  print_cell buf (PrintState p i out)
  = (b ← buf !! (p + i); Some (PrintState p (S i) (out ++ printf_02x b))).
Proof. reflexivity. Qed.

Lemma print_cells_run buf p n i out :
  p + i + n <= length buf ->
  for_loop n (print_cell buf) (PrintState p i out)
  = Some (PrintState p (i + n)
            (out ++ concat (map printf_02x (take n (drop (p + i) buf))))).
Proof.
  revert i out. induction n as [|n IH]; intros i out H.
  - simpl. rewrite Nat.add_0_r, app_nil_r. reflexivity.
  - destruct (lookup_lt_is_Some_2 buf (p + i)) as [b Hb]; [lia|].
    cbn [for_loop]. rewrite print_cell_step, Hb, !bind_some.
    rewrite IH by lia.
    rewrite (drop_S _ _ _ Hb). cbn [take map concat].
    rewrite <- app_assoc.
    replace (S i + n) with (i + S n) by lia.
    replace (p + S i) with (S (p + i)) by lia. reflexivity.
Qed.

Lemma print_cells_bounds buf n s s' :
  for_loop n (print_cell buf) s = Some s' ->
  pr_buf s' = pr_buf s /\ pr_i s' = pr_i s + n /\
  (0 < n -> pr_buf s + pr_i s + n <= length buf).
Proof.
  revert s'. induction n as [|n IH]; intros s' H.
  - injection H as <-. repeat split; lia.
  - rewrite for_loop_snoc in H.
    destruct (for_loop n _ s) as [s1|] eqn:E; [|discriminate].
    rewrite bind_some in H. destruct (IH s1 eq_refl) as (Hp & Hi & _).
    unfold print_cell in H.
    destruct (buf !! _) as [b|] eqn:Hb; [|discriminate].
    apply lookup_lt_Some in Hb. injection H as <-. simpl.
    repeat split; lia.
Qed.

Lemma print_groups_run buf p m i out :
  p + 8 * m <= length buf ->
  exists i',
    for_loop m (print_group buf) (PrintState p i out)
    = Some (PrintState (p + 8 * m) i'
              (out ++ concat (map (fun l => dump_group (take 8 (drop (p + 8 * l) buf)))
                                 (seq 0 m)))).
Proof.
  intros H. induction m as [|m IH].
  - exists i. simpl. rewrite Nat.add_0_r, app_nil_r. reflexivity.
  - destruct IH as [i1 Hrun]; [lia|].
    rewrite for_loop_snoc, Hrun, bind_some. unfold print_group.
    cbn [pr_buf pr_i pr_out].
    rewrite print_cells_run, bind_some by lia.
    cbn [pr_buf pr_i pr_out]. eexists. do 2 f_equal; [lia|].
    rewrite seq_S, map_app, concat_app. cbn [map concat Nat.add].
    rewrite app_nil_r, !Nat.add_0_r. unfold dump_group.
    rewrite <- !app_assoc. reflexivity.
Qed.

Lemma print_groups_bounds buf m s s' :
  for_loop m (print_group buf) s = Some s' ->
  pr_buf s' = pr_buf s + 8 * m /\ (0 < m -> pr_buf s + 8 * m <= length buf).
Proof.
  revert s'. induction m as [|m IH]; intros s' H.
  - injection H as <-. split; lia.
  - rewrite for_loop_snoc in H.
    destruct (for_loop m _ s) as [s1|] eqn:E; [|discriminate].
    rewrite bind_some in H. destruct (IH s1 eq_refl) as (Hp & _).
    unfold print_group in H.
    destruct (for_loop 8 _ _) as [s2|] eqn:E2; [|discriminate].
    rewrite bind_some in H. injection H as <-.
    destruct (print_cells_bounds _ _ _ _ E2) as (B1 & _ & B3).
    cbn [pr_buf pr_i pr_out] in *. split; lia.
Qed.

(** X17: The helper reads the bytes 64 to 127 of the buffer, whatever [elems]
    says: it succeeds exactly on buffers of at least 128 bytes, and reads
    out of bounds on every shorter one. *)
Theorem print_vector_elements_needs_128_bytes (buf : list Z) (elems : Z) :
  is_Some (print_vector_elements buf elems) <-> 128 <= length buf.
Proof.
  unfold print_vector_elements. split.
  - intros [out H].
    destruct (for_loop 8 _ _) as [s|] eqn:E; [|discriminate].
    destruct (print_groups_bounds _ _ _ _ E) as [_ B].
    cbn [pr_buf] in B. lia.
  - intros H. destruct (print_groups_run buf (0 + 64) 8 0 []) as [i' ->];
      [simpl; lia|].
    eexists. reflexivity.
Qed.

Lemma dump_length (bytes : list Z) :
  length bytes = 64 -> length (dump bytes) = 217.
Proof.
  intros H. do 64 (destruct bytes as [|? bytes]; [discriminate H|]).
  destruct bytes; [reflexivity | discriminate H].
Qed.

(** X18: On a buffer of at least 128 bytes the helper prints the text of the
    bytes 64 to 127 and of nothing else: 217 characters, the same for any
    [elems] and any content of the other cells. *)
Theorem print_vector_elements_prints_bytes_64_to_127 (buf : list Z) (elems : Z) :
  128 <= length buf ->
  print_vector_elements buf elems = Some (dump (take 64 (drop 64 buf))) /\
  length (dump (take 64 (drop 64 buf))) = 217.
Proof.
  intros H. split.
  - unfold print_vector_elements.
    destruct (print_groups_run buf (0 + 64) 8 0 []) as [i' ->]; [simpl; lia|].
    rewrite bind_some. cbn [pr_out]. unfold dump. rewrite app_nil_l.
    do 3 f_equal.
    apply map_ext_in. intros l Hl. apply in_seq in Hl. f_equal.
    apply list_eq. intros j. destruct (decide (j < 8)) as [Hj|Hj].
    + rewrite !lookup_take_lt, !lookup_drop by lia.
      rewrite lookup_take_lt, lookup_drop by lia. reflexivity.
    + rewrite !lookup_take_ge by lia. reflexivity.
  - apply dump_length, block_length. lia.
Qed.

Lemma print_vector_elements_prints_bytes_64_to_127_witness :
  print_vector_elements (replicate 64 7%Z ++ replicate 64 171%Z) 16
  = Some (dump (take 64 (drop 64 (replicate 64 7%Z ++ replicate 64 171%Z)))) /\
  length (dump (take 64 (drop 64 (replicate 64 7%Z ++ replicate 64 171%Z))))
  = 217.
Proof.
  apply print_vector_elements_prints_bytes_64_to_127. simpl. lia.
Defined.
